(** * Crossword generation as a CSP: a shallow embedding of [generate.py]

    The development follows the class [CrosswordCreator]: the domain store
    [self.domains], node consistency, [revise], [ac3], the checks and
    heuristics of the search and [backtrack] itself.  Python exceptions are
    part of the model: every operation that can raise returns an [outcome]. *)

From Stdlib Require Import List String Ascii Arith Bool Lia PeanoNat Permutation Sorted.
Import ListNotations.

(** ** Outcomes of Python code *)

(** The exceptions the modelled code can raise. *)
Inductive exn : Type :=
| KeyError
| TypeError
| IndexError
| UnboundLocalError.

(** What running a piece of code yields: a value, an exception, or
    [OutOfFuel] when a fuel-bounded loop of the model ran out of fuel. *)
Inductive outcome (A : Type) : Type :=
| Ret (a : A)
| Raise (e : exn)
| OutOfFuel.

Arguments Ret {A} a.
Arguments Raise {A} e.
Arguments OutOfFuel {A}.

Definition bind {A B : Type} (m : outcome A) (k : A -> outcome B) : outcome B :=
  match m with
  | Ret a => k a
  | Raise e => Raise e
  | OutOfFuel => OutOfFuel
  end.

Declare Scope outcome_scope.
Delimit Scope outcome_scope with outcome.
Notation "x <- m ;; k" := (bind m (fun x => k))
  (at level 61, m at next level, right associativity) : outcome_scope.
Notation "' p <- m ;; k" := (bind m (fun p => k))
  (at level 61, p pattern, m at next level, right associativity) : outcome_scope.
Open Scope outcome_scope.

(** Code that mutates [self.domains] returns the store it leaves behind
    together with its outcome: the store survives an exception. *)
Definition sbind {S A B : Type} (m : S * outcome A) (k : S -> A -> S * outcome B)
  : S * outcome B :=
  match m with
  | (s, Ret a) => k s a
  | (s, Raise e) => (s, Raise e)
  | (s, OutOfFuel) => (s, OutOfFuel)
  end.

(** ** Python containers *)

Section Dict.
Context {K V : Type}.
Variable eqb : K -> K -> bool.

(** A [dict] keeps its keys in insertion order. *)
Definition dict : Type := list (K * V).

(** [d[k]]; [None] stands for a missing key. *)
Fixpoint dict_get (d : dict) (k : K) : option V :=
  match d with
  | [] => None
  | (k', v) :: d' => if eqb k k' then Some v else dict_get d' k
  end.

(** [k in d]. *)
Definition dict_mem (d : dict) (k : K) : bool :=
  match dict_get d k with
  | Some _ => true
  | None => false
  end.

(** [d[k] = v]: an existing key keeps its place, a new one goes last. *)
Fixpoint dict_set (d : dict) (k : K) (v : V) : dict :=
  match d with
  | [] => [(k, v)]
  | (k', v') :: d' =>
      if eqb k k' then (k', v) :: d' else (k', v') :: dict_set d' k v
  end.

(** [d[k]] as an expression that raises [KeyError]. *)
Definition dict_lookup (d : dict) (k : K) : outcome V :=
  match dict_get d k with
  | Some v => Ret v
  | None => Raise KeyError
  end.
End Dict.

Arguments dict K V : clear implicits.

(** [l.pop()]: the last element and the list without it. *)
Fixpoint list_pop {A : Type} (l : list A) : option (list A * A) :=
  match l with
  | [] => None
  | a :: l' =>
      match list_pop l' with
      | None => Some ([], a)
      | Some (l'', b) => Some (a :: l'', b)
      end
  end.

(** [sorted(l)] for the order [leb]: a stable insertion sort, which is the
    list every stable sort returns. *)
Section Sorted.
Context {A : Type}.
Variable leb : A -> A -> bool.

Fixpoint insert_sorted (a : A) (l : list A) : list A :=
  match l with
  | [] => [a]
  | b :: l' => if leb a b then a :: b :: l' else b :: insert_sorted a l'
  end.

Fixpoint sorted (l : list A) : list A :=
  match l with
  | [] => []
  | a :: l' => insert_sorted a (sorted l')
  end.
End Sorted.

(** [w[k]] on a string: [IndexError] past the end. *)
Definition index (w : string) (k : nat) : outcome ascii :=
  match String.get k w with
  | Some c => Ret c
  | None => Raise IndexError
  end.

(** ** The puzzle model (class [Variable] and class [Crossword]) *)

Inductive Direction : Type := ACROSS | DOWN.

(** A slot: [Variable(i, j, direction, length)]; equality is on all four
    fields. *)
Record Var : Type := mkVar {
  var_i : nat;
  var_j : nat;
  var_direction : Direction;
  var_length : nat
}.

Definition direction_eqb (a b : Direction) : bool :=
  match a, b with
  | ACROSS, ACROSS | DOWN, DOWN => true
  | _, _ => false
  end.

Definition var_eqb (x y : Var) : bool :=
  (var_i x =? var_i y) && (var_j x =? var_j y)
  && direction_eqb (var_direction x) (var_direction y)
  && (var_length x =? var_length y).

Definition arc : Type := (Var * Var)%type.

Definition arc_eqb (a b : arc) : bool :=
  var_eqb (fst a) (fst b) && var_eqb (snd a) (snd b).

(** The read-only context the solver works in.  [overlaps] is the crossing
    map, a dict from ordered pairs of slots to [None] or a pair of offsets;
    [neighbors] is the neighbour function of the puzzle. *)
Record Crossword : Type := mkCrossword {
  variables : list Var;
  words : list string;
  overlaps : dict arc (option (nat * nat));
  neighbors : Var -> list Var
}.

(** [x_overlap, y_overlap = self.crossword.overlaps[x, y]]: a missing key
    raises [KeyError], unpacking [None] raises [TypeError]. *)
Definition unpack_overlap (cw : Crossword) (x y : Var) : outcome (nat * nat) :=
  match dict_get arc_eqb (overlaps cw) (x, y) with
  | None => Raise KeyError
  | Some None => Raise TypeError
  | Some (Some p) => Ret p
  end.

(** ** The domain store *)

(** [self.domains]: slot to set of words; a set is a duplicate-free list in
    its iteration order. *)
Definition domains : Type := dict Var (list string).

(** An assignment: slot to word. *)
Definition assignment : Type := dict Var string.

(** [__init__]: every slot starts with a copy of the whole word list. *)
Definition init_domains (cw : Crossword) : domains :=
  map (fun var => (var, words cw)) (variables cw).

(** [s.remove(w)] on a set. *)
Definition set_remove (w : string) (s : list string) : outcome (list string) :=
  if in_dec string_dec w s then Ret (remove string_dec w s) else Raise KeyError.

(** [self.domains[var].remove(word)]. *)
Definition domains_remove (d : domains) (var : Var) (word : string)
  : domains * outcome unit :=
  match dict_get var_eqb d var with
  | None => (d, Raise KeyError)
  | Some s =>
      match set_remove word s with
      | Ret s' => (dict_set var_eqb d var s', Ret tt)
      | Raise e => (d, Raise e)
      | OutOfFuel => (d, OutOfFuel)
      end
  end.

(** ** Node consistency *)

(** The inner loop of [enforce_node_consistency] over the words of the
    snapshot of one slot. *)
Fixpoint enforce_words (var : Var) (ws : list string) (d : domains)
  : domains * outcome unit :=
  match ws with
  | [] => (d, Ret tt)
  | word :: ws' =>
      if negb (String.length word =? var_length var)
      then sbind (domains_remove d var word) (fun d' _ => enforce_words var ws' d')
      else enforce_words var ws' d
  end.

(** The outer loop, over the keys of the snapshot [domain]. *)
Fixpoint enforce_vars (domain : domains) (vars : list Var) (d : domains)
  : domains * outcome unit :=
  match vars with
  | [] => (d, Ret tt)
  | var :: vars' =>
      match dict_get var_eqb domain var with
      | None => (d, Raise KeyError)
      | Some ws =>
          sbind (enforce_words var ws d) (fun d' _ => enforce_vars domain vars' d')
      end
  end.

Definition enforce_node_consistency (d : domains) : domains * outcome unit :=
  let domain := d in
  enforce_vars domain (map fst domain) d.

(** ** Arc consistency *)

(** The inner loop of [revise]: does some [y_word] agree with [x_word] at
    the crossing?  Both indexings are evaluated at every iteration. *)
Fixpoint has_match (x_word : string) (x_overlap y_overlap : nat)
    (y_words : list string) : outcome bool :=
  match y_words with
  | [] => Ret false
  | y_word :: y_words' =>
      cx <- index x_word x_overlap ;;
      cy <- index y_word y_overlap ;;
      if Ascii.eqb cx cy then Ret true
      else has_match x_word x_overlap y_overlap y_words'
  end.

(** The loop of [revise] over the snapshot of [x]'s domain; [domain] is the
    deep copy, [d] the live store, [revised] the flag. *)
Fixpoint revise_words (domain : domains) (x y : Var) (x_overlap y_overlap : nat)
    (x_words : list string) (d : domains) (revised : bool)
  : domains * outcome bool :=
  match x_words with
  | [] => (d, Ret revised)
  | x_word :: x_words' =>
      match dict_get var_eqb domain y with
      | None => (d, Raise KeyError)
      | Some y_words =>
          match has_match x_word x_overlap y_overlap y_words with
          | Ret true =>
              revise_words domain x y x_overlap y_overlap x_words' d revised
          | Ret false =>
              sbind (domains_remove d x x_word) (fun d' _ =>
                revise_words domain x y x_overlap y_overlap x_words' d' true)
          | Raise e => (d, Raise e)
          | OutOfFuel => (d, OutOfFuel)
          end
      end
  end.

(** [revise(x, y)].  The test [if x_overlap:] is a truth test on an
    integer: offset [0] is false. *)
Definition revise (cw : Crossword) (d : domains) (x y : Var)
  : domains * outcome bool :=
  let domain := d in
  match unpack_overlap cw x y with
  | Raise e => (d, Raise e)
  | OutOfFuel => (d, OutOfFuel)
  | Ret (x_overlap, y_overlap) =>
      match x_overlap with
      | 0 => (d, Ret false)
      | S _ =>
          match dict_get var_eqb domain x with
          | None => (d, Raise KeyError)
          | Some x_words =>
              revise_words domain x y x_overlap y_overlap x_words d false
          end
      end
  end.

(** The initial worklist of [ac3]: the inner loop over the neighbours of
    [var_1], appending to [queue]. *)
Fixpoint initial_arcs_of (cw : Crossword) (var_1 : Var) (ns : list Var)
    (queue : list arc) : outcome (list arc) :=
  match ns with
  | [] => Ret queue
  | var_2 :: ns' =>
      match dict_get arc_eqb (overlaps cw) (var_1, var_2) with
      | None => Raise KeyError
      | Some None => initial_arcs_of cw var_1 ns' queue
      | Some (Some _) => initial_arcs_of cw var_1 ns' (queue ++ [(var_1, var_2)])
      end
  end.

Fixpoint initial_arcs (cw : Crossword) (vars : list Var) (queue : list arc)
  : outcome (list arc) :=
  match vars with
  | [] => Ret queue
  | var_1 :: vars' =>
      queue' <- initial_arcs_of cw var_1 (neighbors cw var_1) queue ;;
      initial_arcs cw vars' queue'
  end.

(** The arcs put back on the worklist after [x] was revised against [y]. *)
Definition requeue (cw : Crossword) (x y : Var) : list arc :=
  map (fun neighbor => (neighbor, x))
      (filter (fun neighbor => negb (var_eqb neighbor y)) (neighbors cw x)).

(** The [while] loop of [ac3]; one unit of fuel per iteration. *)
Fixpoint ac3_loop (cw : Crossword) (fuel : nat) (d : domains) (queue : list arc)
  : domains * outcome bool :=
  match list_pop queue with
  | None => (d, Ret true)
  | Some (queue', (x, y)) =>
      match fuel with
      | 0 => (d, OutOfFuel)
      | S fuel' =>
          sbind (revise cw d x y) (fun d' revised =>
            if revised then
              match dict_get var_eqb d' x with
              | None => (d', Raise KeyError)
              | Some s =>
                  if List.length s =? 0 then (d', Ret false)
                  else ac3_loop cw fuel' d' (queue' ++ requeue cw x y)
              end
            else ac3_loop cw fuel' d' queue')
      end
  end.

(** Number of words in the whole store. *)
Definition total_size (d : domains) : nat :=
  list_sum (map (fun e => List.length (snd e)) d).

(** The largest number of neighbours of a slot of the store. *)
Definition max_degree (cw : Crossword) (d : domains) : nat :=
  list_max (map (fun e => List.length (neighbors cw (fst e))) d).

(** Iterations the loop of [ac3] can need: each one pops an arc, and only
    the removal of a word puts arcs back. *)
Definition ac3_fuel (cw : Crossword) (d : domains) (queue : list arc) : nat :=
  List.length queue + S (max_degree cw d) * total_size d.

(** [ac3(arcs)].  With an explicit arc list the local [queue] is never
    bound, and the loop header raises. *)
Definition ac3 (cw : Crossword) (d : domains) (arcs : option (list arc))
  : domains * outcome bool :=
  match arcs with
  | Some _ => (d, Raise UnboundLocalError)
  | None =>
      match initial_arcs cw (map fst d) [] with
      | Ret queue => ac3_loop cw (ac3_fuel cw d queue) d queue
      | Raise e => (d, Raise e)
      | OutOfFuel => (d, OutOfFuel)
      end
  end.

(** ** The checks and heuristics of the search *)

(** [assignment_complete]: every key of the store is a key of the
    assignment. *)
Definition assignment_complete (d : domains) (a : assignment) : bool :=
  forallb (fun var => dict_mem var_eqb a var) (map fst d).

(** First loop of [consistent]: some value occurs more than once. *)
Definition has_repeated_value (vals : list string) : bool :=
  existsb (fun val => 1 <? count_occ string_dec vals val) vals.

(** Second loop of [consistent], over the keys: [Ret false] at the first
    slot whose word has another length. *)
Fixpoint lengths_ok (a : assignment) (vars : list Var) : outcome bool :=
  match vars with
  | [] => Ret true
  | var :: vars' =>
      w <- dict_lookup var_eqb a var ;;
      if negb (var_length var =? String.length w) then Ret false
      else lengths_ok a vars'
  end.

(** Third loop of [consistent], the neighbours of one slot. *)
Fixpoint no_conflict_with (cw : Crossword) (a : assignment) (var : Var)
    (ns : list Var) : outcome bool :=
  match ns with
  | [] => Ret true
  | neighbor :: ns' =>
      if dict_mem var_eqb a neighbor then
        ' (x, y) <- unpack_overlap cw var neighbor ;;
        wv <- dict_lookup var_eqb a var ;;
        cx <- index wv x ;;
        wn <- dict_lookup var_eqb a neighbor ;;
        cy <- index wn y ;;
        if negb (Ascii.eqb cx cy) then Ret false
        else no_conflict_with cw a var ns'
      else no_conflict_with cw a var ns'
  end.

Fixpoint no_conflicts (cw : Crossword) (a : assignment) (vars : list Var)
  : outcome bool :=
  match vars with
  | [] => Ret true
  | var :: vars' =>
      ok <- no_conflict_with cw a var (neighbors cw var) ;;
      if ok then no_conflicts cw a vars' else Ret false
  end.

(** [consistent(assignment)]. *)
Definition consistent (cw : Crossword) (a : assignment) : outcome bool :=
  let vals := map snd a in
  if has_repeated_value vals then Ret false
  else
    ok <- lengths_ok a (map fst a) ;;
    if ok then no_conflicts cw a (map fst a) else Ret false.

(** The innermost loop of [order_domain_values]: the words of a neighbour
    that differ from [word] at the crossing, added to [count]. *)
Fixpoint count_ruled_out (word : string) (x y : nat) (n_words : list string)
    (count : nat) : outcome nat :=
  match n_words with
  | [] => Ret count
  | neighbor_word :: n_words' =>
      cx <- index word x ;;
      cy <- index neighbor_word y ;;
      count_ruled_out word x y n_words'
        (if negb (Ascii.eqb cx cy) then S count else count)
  end.

(** The loop over the neighbours of [var]; assigned ones are skipped. *)
Fixpoint count_neighbors (cw : Crossword) (d : domains) (a : assignment)
    (var : Var) (word : string) (ns : list Var) (count : nat) : outcome nat :=
  match ns with
  | [] => Ret count
  | neighbor :: ns' =>
      if dict_mem var_eqb a neighbor then count_neighbors cw d a var word ns' count
      else
        ' (x, y) <- unpack_overlap cw var neighbor ;;
        n_words <- dict_lookup var_eqb d neighbor ;;
        count' <- count_ruled_out word x y n_words count ;;
        count_neighbors cw d a var word ns' count'
  end.

(** The loop over the words of [var]'s domain, filling the dict
    [ordered_values] (word to count). *)
Fixpoint fill_ordered_values (cw : Crossword) (d : domains) (a : assignment)
    (var : Var) (ws : list string) (ordered_values : dict string nat)
  : outcome (dict string nat) :=
  match ws with
  | [] => Ret ordered_values
  | word :: ws' =>
      count <- count_neighbors cw d a var word (neighbors cw var) 0 ;;
      fill_ordered_values cw d a var ws'
        (dict_set String.eqb ordered_values word count)
  end.

(** [order_domain_values(var, assignment)]: [sorted] over a dict sorts its
    keys, here words, by the order of strings. *)
Definition order_domain_values (cw : Crossword) (d : domains) (var : Var)
    (a : assignment) : outcome (list string) :=
  ws <- dict_lookup var_eqb d var ;;
  ordered_values <- fill_ordered_values cw d a var ws [] ;;
  Ret (sorted String.leb (map fst ordered_values)).

(** The first loop of [select_unassigned_variable], filling the dict
    [unassigned_variables]. *)
Fixpoint fill_unassigned (d : domains) (a : assignment) (vars : list Var)
    (unassigned_variables : dict Var (list string))
  : outcome (dict Var (list string)) :=
  match vars with
  | [] => Ret unassigned_variables
  | var :: vars' =>
      if negb (dict_mem var_eqb a var) then
        s <- dict_lookup var_eqb d var ;;
        fill_unassigned d a vars' (dict_set var_eqb unassigned_variables var s)
      else fill_unassigned d a vars' unassigned_variables
  end.

(** [select_unassigned_variable(assignment)]: the items sorted by the size
    of the domain, and the first key of the sorted list. *)
Definition select_unassigned_variable (d : domains) (a : assignment)
  : outcome Var :=
  unassigned_variables <- fill_unassigned d a (map fst d) [] ;;
  let sorted_list :=
    map fst
      (sorted (fun item1 item2 =>
                 List.length (snd item1) <=? List.length (snd item2))
              unassigned_variables) in
  match sorted_list with
  | [] => Raise IndexError
  | var :: _ => Ret var
  end.

(** ** Backtracking search *)

(** The [for value in ...] loop of [backtrack]; [rec] is the recursive
    call.  [calls] counts the activations of [backtrack] so far. *)
Fixpoint try_values (cw : Crossword)
    (rec : assignment -> nat -> nat * outcome (option assignment))
    (a : assignment) (var : Var) (values : list string) (calls : nat)
  : nat * outcome (option assignment) :=
  match values with
  | [] => (calls, Ret None)
  | value :: values' =>
      let assignment_copy := dict_set var_eqb a var value in
      match consistent cw assignment_copy with
      | Ret true =>
          match rec assignment_copy calls with
          | (calls', Ret None) => try_values cw rec a var values' calls'
          | other => other
          end
      | Ret false => try_values cw rec a var values' calls
      | Raise e => (calls, Raise e)
      | OutOfFuel => (calls, OutOfFuel)
      end
  end.

(** [backtrack(assignment)]; one unit of fuel per level of recursion.  The
    counter [calls] is threaded through the search and incremented each
    time the body of [backtrack] is entered; the code has no such counter,
    it records in the model how often the method is invoked. *)
Fixpoint backtrack (cw : Crossword) (d : domains) (fuel : nat)
    (a : assignment) (calls : nat) : nat * outcome (option assignment) :=
  match fuel with
  | 0 => (calls, OutOfFuel)
  | S fuel' =>
      let calls := S calls in
      if List.length a =? List.length d then (calls, Ret (Some a))
      else
        match select_unassigned_variable d a with
        | Ret var =>
            match order_domain_values cw d var a with
            | Ret values =>
                try_values cw (backtrack cw d fuel') a var values calls
            | Raise e => (calls, Raise e)
            | OutOfFuel => (calls, OutOfFuel)
            end
        | Raise e => (calls, Raise e)
        | OutOfFuel => (calls, OutOfFuel)
        end
  end.

(** What a run of [solve] leaves behind: the pruned store, how many times
    [backtrack] was entered, and what [solve] returned. *)
Record run : Type := mkRun {
  final_domains : domains;
  backtrack_calls : nat;
  result : outcome (option assignment)
}.

(** [solve()].  The results of the two consistency passes are dropped; the
    recursion depth of the search is at most one more than the number of
    slots. *)
Definition solve (cw : Crossword) (d : domains) : run :=
  match enforce_node_consistency d with
  | (d1, Ret _) =>
      match ac3 cw d1 None with
      | (d2, Ret _) =>
          let (calls, r) := backtrack cw d2 (S (List.length d2)) [] 0 in
          mkRun d2 calls r
      | (d2, Raise e) => mkRun d2 0 (Raise e)
      | (d2, OutOfFuel) => mkRun d2 0 OutOfFuel
      end
  | (d1, Raise e) => mkRun d1 0 (Raise e)
  | (d1, OutOfFuel) => mkRun d1 0 OutOfFuel
  end.

(** ** Well-formed puzzles and stores *)

(** The offsets at which [x] and [y] cross, when the crossing map has a
    pair for them. *)
Definition crossing (cw : Crossword) (x y : Var) : option (nat * nat) :=
  match dict_get arc_eqb (overlaps cw) (x, y) with
  | Some (Some p) => Some p
  | _ => None
  end.

Definition var_mem (x : Var) (l : list Var) : bool := existsb (var_eqb x) l.

Fixpoint nodupb {A : Type} (eqb : A -> A -> bool) (l : list A) : bool :=
  match l with
  | [] => true
  | a :: l' => negb (existsb (eqb a) l') && nodupb eqb l'
  end.

Fixpoint list_eqb {A : Type} (eqb : A -> A -> bool) (l1 l2 : list A) : bool :=
  match l1, l2 with
  | [], [] => true
  | a :: l1', b :: l2' => eqb a b && list_eqb eqb l1' l2'
  | _, _ => false
  end.

(** What the solver relies on from the puzzle model: the neighbours of a
    slot are slots that cross it, a crossing makes the two slots
    neighbours, its offsets lie inside the two slots, and the map is
    symmetric. *)
Definition wf_slot (cw : Crossword) (x : Var) : bool :=
  forallb (fun y => var_mem y (variables cw)
                    && match crossing cw x y with Some _ => true | None => false end)
          (neighbors cw x)
  && forallb (fun y =>
       match crossing cw x y with
       | None => true
       | Some (ix, iy) =>
           var_mem y (neighbors cw x)
           && (ix <? var_length x) && (iy <? var_length y)
           && match crossing cw y x with
              | Some (jy, jx) => (jy =? iy) && (jx =? ix)
              | None => false
              end
       end) (variables cw).

Definition wf_crossword (cw : Crossword) : bool :=
  forallb (wf_slot cw) (variables cw).

(** The representation invariants of a store: a dict has each key once and
    a set has each word once. *)
Definition store_okb (d : domains) : bool :=
  nodupb var_eqb (map fst d) && forallb (fun e => nodupb String.eqb (snd e)) d.

Definition store_ok (d : domains) : Prop :=
  NoDup (map fst d) /\ Forall (fun e => NoDup (snd e)) d.

(** A store of the puzzle: its keys are the slots of the puzzle. *)
Definition wf_domains (cw : Crossword) (d : domains) : bool :=
  list_eqb var_eqb (map fst d) (variables cw) && store_okb d.

(** An assignment over the puzzle: a dict whose keys are slots. *)
Definition wf_assignment (cw : Crossword) (a : assignment) : bool :=
  nodupb var_eqb (map fst a)
  && forallb (fun var => var_mem var (variables cw)) (map fst a).

(** ** Node consistency, as a property *)

Definition length_ok (var : Var) (w : string) : bool :=
  String.length w =? var_length var.

(** What node consistency makes of one entry of the store. *)
Definition node_filter (e : Var * list string) : Var * list string :=
  (fst e, filter (length_ok (fst e)) (snd e)).

Definition node_consistent (d : domains) : Prop :=
  forall var s w,
    dict_get var_eqb d var = Some s -> In w s -> String.length w = var_length var.

(** ** Support of a word across a crossing *)

(** The two words carry the same character at the two offsets. *)
Definition agreeb (wx wy : string) (ix iy : nat) : bool :=
  match String.get ix wx, String.get iy wy with
  | Some a, Some b => Ascii.eqb a b
  | _, _ => false
  end.

(** Some word of [ys] agrees with [w]. *)
Definition supported (ys : list string) (ix iy : nat) (w : string) : bool :=
  existsb (fun yw => agreeb w yw ix iy) ys.

(** Every binding of the assignment is still in the store. *)
Definition supports (d : domains) (a : assignment) : Prop :=
  forall v w, In (v, w) a -> exists s, dict_get var_eqb d v = Some s /\ In w s.

Definition withinb (d : domains) (a : assignment) : bool :=
  forallb (fun e => match dict_get var_eqb d (fst e) with
                    | Some s => existsb (String.eqb (snd e)) s
                    | None => false
                    end) a.

(** ** Building a puzzle from its slots *)

(** Modelled from the spec: the cells of a slot, which [crossword.py]
    computes and [generate.py] only uses through the crossing map: a run of
    [length] cells from [(i, j)], along the row for ACROSS and down the
    column for DOWN. *)
Definition cells (v : Var) : list (nat * nat) :=
  map (fun k => match var_direction v with
                | DOWN => (var_i v + k, var_j v)
                | ACROSS => (var_i v, var_j v + k)
                end) (seq 0 (var_length v)).

Definition cell_eqb (c1 c2 : nat * nat) : bool :=
  (fst c1 =? fst c2) && (snd c1 =? snd c2).

Fixpoint cell_index (c : nat * nat) (cs : list (nat * nat)) : option nat :=
  match cs with
  | [] => None
  | c' :: cs' =>
      if cell_eqb c c' then Some 0
      else match cell_index c cs' with Some k => Some (S k) | None => None end
  end.

(** Modelled from the spec: the entry of the crossing map for two slots,
    [None] when they share no cell and otherwise the offsets of the shared
    cell in the first and in the second slot. *)
Fixpoint overlap_from (cs1 cs2 : list (nat * nat)) (k : nat) : option (nat * nat) :=
  match cs1 with
  | [] => None
  | c :: cs1' =>
      match cell_index c cs2 with
      | Some k2 => Some (k, k2)
      | None => overlap_from cs1' cs2 (S k)
      end
  end.

(** Modelled from the spec: the crossing map of a list of slots, one entry
    for every ordered pair of different slots. *)
Definition overlaps_of (vars : list Var) : dict arc (option (nat * nat)) :=
  flat_map (fun v1 =>
    flat_map (fun v2 =>
      if var_eqb v1 v2 then []
      else [((v1, v2), overlap_from (cells v1) (cells v2) 0)]) vars) vars.

(** Modelled from the spec: the neighbour function of the puzzle model,
    the slots other than [var] that cross it. *)
Definition neighbors_of (vars : list Var) (var : Var) : list Var :=
  filter (fun v =>
            negb (var_eqb v var)
            && match dict_get arc_eqb (overlaps_of vars) (v, var) with
               | Some (Some _) => true
               | _ => false
               end) vars.

Definition make_crossword (vars : list Var) (ws : list string) : Crossword :=
  mkCrossword vars ws (overlaps_of vars) (neighbors_of vars).

(** ** Sample puzzles *)

Module Samples.
Local Open Scope string_scope.

(** Two slots of length 3 that cross at offset 1 of [A] and offset 0 of [B]. *)
Definition A : Var := mkVar 0 0 ACROSS 3.
Definition B : Var := mkVar 0 1 DOWN 3.
Definition cross_ok : Crossword := make_crossword [A; B] ["CAT"; "APE"; "HORSE"].
Definition cross_bad : Crossword := make_crossword [A; B] ["CAT"; "TOM"].

(** Two slots that share their first cell: both offsets are 0. *)
Definition P : Var := mkVar 0 0 ACROSS 2.
Definition Q : Var := mkVar 0 0 DOWN 3.
Definition corner : Crossword := make_crossword [P; Q] ["AB"; "CD"; "AXY"].

(** Two slots that do not cross. *)
Definition R : Var := mkVar 0 0 ACROSS 2.
Definition T : Var := mkVar 2 0 ACROSS 2.
Definition apart : Crossword := make_crossword [R; T] ["AB"; "CD"].

(** The crossing of [cross_ok] with the DOWN slot first in the store, and
  words whose first letters are unevenly met by the second letters. *)
Definition lcv : Crossword := make_crossword [B; A] ["ABB"; "BBA"; "CBC"].
End Samples.

(** ** The properties the checks and the search are held to *)

(** (a) no two distinct slots are bound to the same word. *)
Definition distinct_words (a : assignment) : Prop :=
  forall x y w, In (x, w) a -> In (y, w) a -> x = y.

(** (b) every bound word has the length of its slot. *)
Definition lengths_match (a : assignment) : Prop :=
  forall x w, In (x, w) a -> String.length w = var_length x.

(** Two words carry the same character at the two offsets. *)
Definition agree (wx wy : string) (ix iy : nat) : Prop :=
  exists c, String.get ix wx = Some c /\ String.get iy wy = Some c.

(** (c) the words of two crossing slots of the assignment agree at the
    crossing. *)
Definition crossings_agree (cw : Crossword) (a : assignment) : Prop :=
  forall x y wx wy ix iy,
    In (x, wx) a -> In (y, wy) a -> crossing cw x y = Some (ix, iy) ->
    agree wx wy ix iy.

(** The words of [var] and of its neighbours in [ns] agree. *)
Definition agree_with (cw : Crossword) (a : assignment) (var : Var)
    (ns : list Var) : Prop :=
  forall n wv wn ix iy,
    In n ns -> In (var, wv) a -> In (n, wn) a ->
    crossing cw var n = Some (ix, iy) -> agree wv wn ix iy.

(** The assignments the search works on: dicts over the keys of the store. *)
Definition over (d : domains) (a : assignment) : Prop :=
  NoDup (map fst a) /\ incl (map fst a) (map fst d).

(** What is claimed of a returned assignment. *)
Definition solution (cw : Crossword) (d : domains) (r : assignment) : Prop :=
  over d r /\ assignment_complete d r = true /\ consistent cw r = Ret true.

(** A recursive call whose returned assignments are solutions. *)
Definition sound_call (cw : Crossword) (d : domains)
    (rec : assignment -> nat -> nat * outcome (option assignment)) : Prop :=
  forall a calls calls' r,
    over d a -> consistent cw a = Ret true ->
    rec a calls = (calls', Ret (Some r)) -> solution cw d r.

(** A store the passes can work on, which still holds the solution [sol]. *)
Definition good (cw : Crossword) (sol : assignment) (d : domains) : Prop :=
  map fst d = variables cw /\ store_ok d /\ node_consistent d /\ supports d sol.

(** An arc of the puzzle: two slots that cross. *)
Definition arc_ok (cw : Crossword) (a : arc) : Prop :=
  In (fst a) (variables cw) /\ In (snd a) (variables cw)
  /\ crossing cw (fst a) (snd a) <> None.

(** A call of the search that returns, and with an assignment when its
    argument is part of the solution [sol]. *)
Definition complete_call (sol : assignment)
    (rec : assignment -> nat -> nat * outcome (option assignment))
    (a : assignment) : Prop :=
  forall calls, exists calls' r,
    rec a calls = (calls', Ret r) /\ (incl a sol -> exists r', r = Some r').

(** The count [order_domain_values] stores for [word]. *)
Definition ruled_out (cw : Crossword) (d : domains) (a : assignment)
    (var : Var) (word : string) : outcome nat :=
  count_neighbors cw d a var word (neighbors cw var) 0.

(** Arc consistency of a store, as the docstring of [ac3] promises it. *)
Definition arc_consistent (cw : Crossword) (d : domains) : Prop :=
  forall x y ix iy xs ys w,
    crossing cw x y = Some (ix, iy) ->
    dict_get var_eqb d x = Some xs -> dict_get var_eqb d y = Some ys ->
    In w xs -> supported ys ix iy w = true.

(** ** [letter_grid] *)

(** The 2D array of [letter_grid]: rows of cells, a cell [None] or a
    letter. *)
Definition grid : Type := list (list (option ascii)).

(** The fresh array of [height] rows of [width] cells, all [None]; every
    row is a list of its own. *)
Definition blank_grid (height width : nat) : grid :=
  repeat (repeat None width) height.

(** [l[n] = a] on a list: [IndexError] past the end. *)
Fixpoint list_set {A : Type} (l : list A) (n : nat) (a : A) : outcome (list A) :=
  match l, n with
  | [], _ => Raise IndexError
  | _ :: l', 0 => Ret (a :: l')
  | b :: l', S n' => l'' <- list_set l' n' a ;; Ret (b :: l'')
  end.

(** [letters[i][j] = c]: the row [letters[i]] is looked up, then its cell
    [j] is stored. *)
Definition grid_set (letters : grid) (i j : nat) (c : ascii) : outcome grid :=
  match nth_error letters i with
  | None => Raise IndexError
  | Some row => row' <- list_set row j (Some c) ;; list_set letters i row'
  end.

(** [letters[i][j]], [None] outside the array. *)
Definition grid_get (letters : grid) (i j : nat) : option (option ascii) :=
  match nth_error letters i with
  | None => None
  | Some row => nth_error row j
  end.

(** The cell [(i, j)] that [letter_grid] computes for letter [k] of a
    slot. *)
Definition letter_cell (variable : Var) (k : nat) : nat * nat :=
  (var_i variable + match var_direction variable with DOWN => k | ACROSS => 0 end,
   var_j variable + match var_direction variable with ACROSS => k | DOWN => 0 end).

(** The inner loop of [letter_grid], [for k in range(len(word))]. *)
Fixpoint place_word (variable : Var) (word : string) (ks : list nat)
    (letters : grid) : outcome grid :=
  match ks with
  | [] => Ret letters
  | k :: ks' =>
      let (i, j) := letter_cell variable k in
      c <- index word k ;;
      letters' <- grid_set letters i j c ;;
      place_word variable word ks' letters'
  end.

(** The outer loop, over the items of the assignment. *)
Fixpoint place_words (items : list (Var * string)) (letters : grid)
  : outcome grid :=
  match items with
  | [] => Ret letters
  | (variable, word) :: items' =>
      letters' <- place_word variable word (seq 0 (String.length word)) letters ;;
      place_words items' letters'
  end.

(** [letter_grid(assignment)]; [height] and [width] are those of the
    crossword. *)
Definition letter_grid (height width : nat) (a : assignment) : outcome grid :=
  place_words a (blank_grid height width).

(** The stores [letter_grid] makes for one word and for an assignment, in
    the order it makes them: the cell and the letter. *)
Definition letter_writes (variable : Var) (word : string) (ks : list nat)
  : list ((nat * nat) * ascii) :=
  flat_map (fun k => match String.get k word with
                     | Some c => [(letter_cell variable k, c)]
                     | None => []
                     end) ks.

Definition word_writes (variable : Var) (word : string)
  : list ((nat * nat) * ascii) :=
  letter_writes variable word (seq 0 (String.length word)).

Definition writes (a : assignment) : list ((nat * nat) * ascii) :=
  flat_map (fun e => word_writes (fst e) (snd e)) a.

(** A list of stores made one after the other. *)
Fixpoint put_all (ws : list ((nat * nat) * ascii)) (letters : grid)
  : outcome grid :=
  match ws with
  | [] => Ret letters
  | (cell, c) :: ws' =>
      letters' <- grid_set letters (fst cell) (snd cell) c ;;
      put_all ws' letters'
  end.

(** An array of [height] rows of [width] cells. *)
Definition grid_shape (height width : nat) (letters : grid) : Prop :=
  List.length letters = height
  /\ Forall (fun row => List.length row = width) letters.

(** Every letter of the assignment falls inside the array. *)
Definition fits (height width : nat) (a : assignment) : Prop :=
  forall v word k, In (v, word) a -> k < String.length word ->
    fst (letter_cell v k) < height /\ snd (letter_cell v k) < width.

(** Two letters of the assignment that fall in the same cell are the same
    letter. *)
Definition letters_agree (a : assignment) : Prop :=
  forall v1 w1 k1 c1 v2 w2 k2 c2,
    In (v1, w1) a -> In (v2, w2) a ->
    String.get k1 w1 = Some c1 -> String.get k2 w2 = Some c2 ->
    letter_cell v1 k1 = letter_cell v2 k2 -> c1 = c2.

(** Every letter falls inside the [height] x [width] array. *)
Definition fitsb (height width : nat) (a : assignment) : bool :=
  forallb (fun wr => (fst (fst wr) <? height) && (snd (fst wr) <? width))
          (writes a).

(** Two letters stored in the same cell are the same letter. *)
Definition letters_agreeb (a : assignment) : bool :=
  forallb (fun w1 =>
    forallb (fun w2 =>
      implb (cell_eqb (fst w1) (fst w2)) (Ascii.eqb (snd w1) (snd w2)))
      (writes a)) (writes a).

(** ** Notions for the further properties *)

Definition node_consistentb (d : domains) : bool :=
  forallb (fun e => forallb (length_ok (fst e)) (snd e)) d.

(** [over], as a test. *)
Definition overb (d : domains) (a : assignment) : bool :=
  nodupb var_eqb (map fst a)
  && forallb (fun var => var_mem var (map fst d)) (map fst a).

(** The store [d'] has the slots of [d] and no word that [d] has not. *)
Definition shrinks (d d' : domains) : Prop :=
  map fst d' = map fst d
  /\ forall v s', dict_get var_eqb d' v = Some s' ->
       exists s, dict_get var_eqb d v = Some s /\ incl s' s.

(** No slot has an entry of offsets with itself in the crossing map. *)
Definition no_self_crossing (cw : Crossword) : bool :=
  forallb (fun x => match crossing cw x x with None => true | Some _ => false end)
          (variables cw).

(** Every arc of the puzzle is on the worklist or has its first slot
    supported by the second; arcs whose first offset is 0 are left out. *)
Definition pending (cw : Crossword) (d : domains) (queue : list arc) : Prop :=
  forall x y ix iy xs ys w,
    In x (variables cw) -> In y (variables cw) ->
    crossing cw x y = Some (S ix, iy) -> ~ In (x, y) queue ->
    dict_get var_eqb d x = Some xs -> dict_get var_eqb d y = Some ys ->
    In w xs -> supported ys (S ix) iy w = true.

(** A call of the search that returns. *)
Definition total_call
    (rec : assignment -> nat -> nat * outcome (option assignment))
    (a : assignment) : Prop :=
  forall calls, exists calls' r, rec a calls = (calls', Ret r).

(** A recursive call whose returned assignments take their words from the
    store. *)
Definition within_call (d : domains)
    (rec : assignment -> nat -> nat * outcome (option assignment)) : Prop :=
  forall a calls calls' r,
    supports d a -> rec a calls = (calls', Ret (Some r)) -> supports d r.

Ltac inv H := inversion H; subst; clear H.

(** * Proofs *)

(** ** Equality tests and dicts *)

Lemma direction_eqb_spec (a b : Direction) : reflect (a = b) (direction_eqb a b).
Proof. destruct a, b; simpl; constructor; congruence. Qed.

Lemma var_eqb_spec (x y : Var) : reflect (x = y) (var_eqb x y).
Proof.
  destruct x as [i1 j1 d1 l1], y as [i2 j2 d2 l2]; unfold var_eqb; simpl.
  destruct (Nat.eqb_spec i1 i2); [|constructor; congruence].
  destruct (Nat.eqb_spec j1 j2); [|constructor; congruence].
  destruct (direction_eqb_spec d1 d2); [|constructor; congruence].
  destruct (Nat.eqb_spec l1 l2); constructor; congruence.
Qed.

Lemma var_eqb_refl (x : Var) : var_eqb x x = true.
Proof. destruct (var_eqb_spec x x); congruence. Qed.

Lemma var_eqb_neq (x y : Var) : x <> y -> var_eqb x y = false.
Proof. destruct (var_eqb_spec x y); congruence. Qed.

Lemma arc_eqb_spec (a b : arc) : reflect (a = b) (arc_eqb a b).
Proof.
  destruct a as [a1 a2], b as [b1 b2]; unfold arc_eqb; simpl.
  destruct (var_eqb_spec a1 b1); [|constructor; congruence].
  destruct (var_eqb_spec a2 b2); constructor; congruence.
Qed.

Section DictFacts.
Context {K V : Type}.
Variable eqb : K -> K -> bool.
Hypothesis eqb_spec : forall x y, reflect (x = y) (eqb x y).

Lemma dict_get_In (d : dict K V) k v : dict_get eqb d k = Some v -> In (k, v) d.
Proof.
  induction d as [|[k' v'] d IH]; simpl; [discriminate|].
  destruct (eqb_spec k k'); intros H.
  - injection H as ->. subst. now left.
  - right. auto.
Qed.

Lemma dict_get_key (d : dict K V) k v : dict_get eqb d k = Some v -> In k (map fst d).
Proof. intros H. apply dict_get_In in H. now apply (in_map fst) in H. Qed.

Lemma dict_get_None (d : dict K V) k : dict_get eqb d k = None <-> ~ In k (map fst d).
Proof.
  induction d as [|[k' v'] d IH]; simpl.
  - tauto.
  - destruct (eqb_spec k k'); split; intros H.
    + discriminate.
    + exfalso. apply H. left. congruence.
    + intros [E|HI]; [congruence|]. now apply IH in H.
    + apply IH. tauto.
Qed.

Lemma dict_mem_In (d : dict K V) k : dict_mem eqb d k = true <-> In k (map fst d).
Proof.
  unfold dict_mem. destruct (dict_get eqb d k) eqn:E.
  - split; auto. intros _. eapply dict_get_key; eauto.
  - apply dict_get_None in E. split; [discriminate|tauto].
Qed.

Lemma dict_mem_false (d : dict K V) k : dict_mem eqb d k = false <-> ~ In k (map fst d).
Proof.
  rewrite <- dict_mem_In. destruct (dict_mem eqb d k); split; congruence.
Qed.

Lemma In_dict_get (d : dict K V) k v :
  NoDup (map fst d) -> In (k, v) d -> dict_get eqb d k = Some v.
Proof.
  induction d as [|[k' v'] d IH]; simpl; [tauto|].
  intros ND [E|HI].
  - injection E as -> ->. destruct (eqb_spec k k); congruence.
  - inversion ND; subst. destruct (eqb_spec k k').
    + subst. exfalso. apply H1. now apply (in_map fst) in HI.
    + auto.
Qed.

Lemma dict_get_set_same (d : dict K V) k v : dict_get eqb (dict_set eqb d k v) k = Some v.
Proof.
  induction d as [|[k' v'] d IH]; simpl.
  - destruct (eqb_spec k k); congruence.
  - destruct (eqb_spec k k') as [E|E]; simpl.
    + destruct (eqb_spec k k'); congruence.
    + destruct (eqb_spec k k'); congruence.
Qed.

Lemma dict_get_set_other (d : dict K V) k k' v :
  k' <> k -> dict_get eqb (dict_set eqb d k v) k' = dict_get eqb d k'.
Proof.
  intros N. induction d as [|[k0 v0] d IH]; simpl.
  - destruct (eqb_spec k' k); congruence.
  - destruct (eqb_spec k k0) as [E|E]; simpl.
    + subst. destruct (eqb_spec k' k0); congruence.
    + destruct (eqb_spec k' k0); congruence.
Qed.

Lemma dict_set_keys_mem (d : dict K V) k v :
  In k (map fst d) -> map fst (dict_set eqb d k v) = map fst d.
Proof.
  induction d as [|[k0 v0] d IH]; simpl; [tauto|].
  intros HI. destruct (eqb_spec k k0); simpl; [reflexivity|].
  f_equal. apply IH. destruct HI; congruence.
Qed.

Lemma dict_set_new (d : dict K V) k v :
  ~ In k (map fst d) -> dict_set eqb d k v = d ++ [(k, v)].
Proof.
  induction d as [|[k0 v0] d IH]; simpl; [reflexivity|].
  intros HI. destruct (eqb_spec k k0) as [->|]; [exfalso; apply HI; now left|].
  f_equal. apply IH. tauto.
Qed.

Lemma dict_set_length (d : dict K V) k v :
  In k (map fst d) -> List.length (dict_set eqb d k v) = List.length d.
Proof.
  intros H. rewrite <- (length_map fst), dict_set_keys_mem, length_map; auto.
Qed.

Lemma dict_set_same_value (d : dict K V) k v :
  dict_get eqb d k = Some v -> dict_set eqb d k v = d.
Proof.
  induction d as [|[k0 v0] d IH]; simpl; [discriminate|].
  destruct (eqb_spec k k0).
  - intros H. injection H as ->. reflexivity.
  - intros H. f_equal. auto.
Qed.

Lemma dict_set_set (d : dict K V) k v1 v2 :
  dict_set eqb (dict_set eqb d k v1) k v2 = dict_set eqb d k v2.
Proof.
  induction d as [|[k0 v0] d IH]; simpl.
  - destruct (eqb_spec k k); congruence.
  - destruct (eqb_spec k k0) as [E|E]; simpl.
    + destruct (eqb_spec k k0); congruence.
    + destruct (eqb_spec k k0); [congruence|]. now rewrite IH.
Qed.

Lemma dict_set_app_mid (d1 d2 : dict K V) k v0 v :
  ~ In k (map fst d1) ->
  dict_set eqb (d1 ++ (k, v0) :: d2) k v = d1 ++ (k, v) :: d2.
Proof.
  induction d1 as [|[k1 v1] d1 IH]; simpl.
  - intros _. destruct (eqb_spec k k); congruence.
  - intros HI. destruct (eqb_spec k k1) as [->|]; [exfalso; apply HI; now left|].
    f_equal. apply IH. tauto.
Qed.

Lemma dict_get_app_mid (d1 d2 : dict K V) k v :
  ~ In k (map fst d1) -> dict_get eqb (d1 ++ (k, v) :: d2) k = Some v.
Proof.
  induction d1 as [|[k1 v1] d1 IH]; simpl.
  - intros _. destruct (eqb_spec k k); congruence.
  - intros HI. destruct (eqb_spec k k1) as [->|]; [exfalso; apply HI; now left|].
    apply IH. tauto.
Qed.
End DictFacts.

(** ** Facts on the domain store *)


Lemma nodupb_NoDup {A : Type} (eqb : A -> A -> bool)
    (eqb_spec : forall x y, reflect (x = y) (eqb x y)) (l : list A) :
  nodupb eqb l = true <-> NoDup l.
Proof.
  induction l as [|a l IH]; simpl.
  - split; [constructor|reflexivity].
  - rewrite andb_true_iff, negb_true_iff, IH. split.
    + intros [H1 H2]. constructor; auto. intros HI.
      assert (existsb (eqb a) l = true) as E; [|congruence].
      apply existsb_exists. exists a. split; auto. destruct (eqb_spec a a); congruence.
    + intros H. inv H. split; auto.
      destruct (existsb (eqb a) l) eqn:E; auto.
      apply existsb_exists in E as (b & Hb & Hab).
      destruct (eqb_spec a b); congruence.
Qed.

Lemma var_mem_In (x : Var) (l : list Var) : var_mem x l = true <-> In x l.
Proof.
  unfold var_mem. rewrite existsb_exists. split.
  - intros (y & Hy & E). destruct (var_eqb_spec x y); congruence.
  - intros H. exists x. split; auto. apply var_eqb_refl.
Qed.

Lemma list_eqb_eq {A : Type} (eqb : A -> A -> bool)
    (eqb_spec : forall x y, reflect (x = y) (eqb x y)) (l1 l2 : list A) :
  list_eqb eqb l1 l2 = true <-> l1 = l2.
Proof.
  revert l2. induction l1 as [|a l1 IH]; intros [|b l2]; simpl; split; try congruence.
  - rewrite andb_true_iff, IH. intros [H ->]. destruct (eqb_spec a b); congruence.
  - intros E. inv E. rewrite andb_true_iff, IH. split; auto.
    destruct (eqb_spec b b); congruence.
Qed.

Lemma store_okb_ok d : store_okb d = true -> store_ok d.
Proof.
  unfold store_okb. rewrite andb_true_iff. intros [H1 H2]. split.
  - apply (nodupb_NoDup var_eqb var_eqb_spec); auto.
  - apply Forall_forall. intros e He. rewrite forallb_forall in H2.
    apply (nodupb_NoDup String.eqb String.eqb_spec); auto.
Qed.

Lemma wf_domains_store_ok cw d : wf_domains cw d = true -> store_ok d.
Proof.
  unfold wf_domains. rewrite andb_true_iff. intros [_ H]. now apply store_okb_ok.
Qed.

Lemma wf_domains_keys cw d : wf_domains cw d = true -> map fst d = variables cw.
Proof.
  unfold wf_domains. rewrite !andb_true_iff. intros [H _].
  apply (list_eqb_eq var_eqb var_eqb_spec); auto.
Qed.

Lemma domains_remove_cases d var word :
  domains_remove d var word = (d, Raise KeyError)
  \/ exists s, dict_get var_eqb d var = Some s /\ In word s
               /\ domains_remove d var word
                  = (dict_set var_eqb d var (remove string_dec word s), Ret tt).
Proof.
  unfold domains_remove, set_remove.
  destruct (dict_get var_eqb d var) as [s|]; auto.
  destruct (in_dec string_dec word s); auto.
  right. exists s. auto.
Qed.

Lemma domains_remove_frame d var word z :
  z <> var ->
  dict_get var_eqb (fst (domains_remove d var word)) z = dict_get var_eqb d z.
Proof.
  intros N. destruct (domains_remove_cases d var word) as [->|(s & _ & _ & ->)]; simpl; auto.
  apply (dict_get_set_other var_eqb var_eqb_spec); auto.
Qed.

Lemma domains_remove_keys d var word :
  map fst (fst (domains_remove d var word)) = map fst d.
Proof.
  destruct (domains_remove_cases d var word) as [->|(s & Hs & _ & ->)]; simpl; auto.
  apply (dict_set_keys_mem var_eqb var_eqb_spec).
  eapply dict_get_key; eauto using var_eqb_spec.
Qed.

(** ** [revise] touches the domain of [x] only *)

Lemma revise_words_frame domain x y xo yo xs : forall d revised z,
  z <> x ->
  dict_get var_eqb (fst (revise_words domain x y xo yo xs d revised)) z
  = dict_get var_eqb d z.
Proof.
  induction xs as [|w xs IH]; intros d revised z N; simpl; auto.
  destruct (dict_get var_eqb domain y) as [ys|]; simpl; auto.
  destruct (has_match w xo yo ys) as [[|]| |]; simpl; auto.
  pose proof (domains_remove_frame d x w z N) as F.
  destruct (domains_remove d x w) as [d' [[]| |]]; simpl in *; auto.
  rewrite IH; auto.
Qed.

Lemma revise_frame cw d x y z :
  z <> x -> dict_get var_eqb (fst (revise cw d x y)) z = dict_get var_eqb d z.
Proof.
  intros N. unfold revise.
  destruct (unpack_overlap cw x y) as [[xo yo]| |]; simpl; auto.
  destruct xo; simpl; auto.
  destruct (dict_get var_eqb d x); simpl; auto.
  apply revise_words_frame; auto.
Qed.

Lemma revise_words_keys domain x y xo yo xs : forall d revised,
  map fst (fst (revise_words domain x y xo yo xs d revised)) = map fst d.
Proof.
  induction xs as [|w xs IH]; intros d revised; simpl; auto.
  destruct (dict_get var_eqb domain y) as [ys|]; simpl; auto.
  destruct (has_match w xo yo ys) as [[|]| |]; simpl; auto.
  pose proof (domains_remove_keys d x w) as F.
  destruct (domains_remove d x w) as [d' [[]| |]]; simpl in *; auto.
  rewrite IH; auto.
Qed.

Lemma revise_keys cw d x y : map fst (fst (revise cw d x y)) = map fst d.
Proof.
  unfold revise.
  destruct (unpack_overlap cw x y) as [[xo yo]| |]; simpl; auto.
  destruct xo; simpl; auto.
  destruct (dict_get var_eqb d x); simpl; auto.
  apply revise_words_keys.
Qed.

(** C10: [revise(x, y)] mutates at most the domain of [x].  For every slot
    [z] other than [x] ([y] included), the domain of [z] in the store that
    the call leaves behind, whether it returns or raises, is its domain
    before the call. *)
Theorem revise_mutates_only_x (cw : Crossword) (d : domains) (x y z : Var) :
  z <> x ->
  dict_get var_eqb (fst (revise cw d x y)) z = dict_get var_eqb d z.
Proof. apply revise_frame. Qed.

(** On a pair whose entry in the crossing map is [None], the unpacking
    raises before the guard [if x_overlap:] is reached. *)
Lemma revise_no_crossing cw d x y :
  dict_get arc_eqb (overlaps cw) (x, y) = Some None ->
  revise cw d x y = (d, Raise TypeError).
Proof. intros H. unfold revise, unpack_overlap. now rewrite H. Qed.

(** ** Node consistency *)

Lemma remove_NoDup_mid (w : string) (kept ws : list string) :
  NoDup (kept ++ w :: ws) -> remove string_dec w (kept ++ w :: ws) = kept ++ ws.
Proof.
  intros ND. apply NoDup_remove_2 in ND.
  rewrite remove_app, remove_cons.
  rewrite !notin_remove; auto; intros H; apply ND, in_or_app; auto.
Qed.

Lemma enforce_words_spec var : forall ws kept d,
  dict_get var_eqb d var = Some (kept ++ ws) ->
  NoDup (kept ++ ws) ->
  enforce_words var ws d
  = (dict_set var_eqb d var (kept ++ filter (length_ok var) ws), Ret tt).
Proof.
  induction ws as [|w ws IH]; intros kept d Hd ND; simpl.
  - rewrite (dict_set_same_value var_eqb var_eqb_spec); auto.
  - unfold length_ok at 1. destruct (String.length w =? var_length var) eqn:E; simpl.
    + rewrite (IH (kept ++ [w]) d); rewrite <- ?app_assoc; simpl; auto.
    + unfold domains_remove, set_remove. rewrite Hd.
      destruct (in_dec string_dec w (kept ++ w :: ws)) as [_|N];
        [|exfalso; apply N, in_or_app; simpl; auto].
      simpl. rewrite remove_NoDup_mid by auto.
      rewrite (IH kept).
      * now rewrite (dict_set_set var_eqb var_eqb_spec).
      * apply (dict_get_set_same var_eqb var_eqb_spec).
      * eapply NoDup_remove_1; eauto.
Qed.

Lemma node_filter_keys (d : domains) : map fst (map node_filter d) = map fst d.
Proof. rewrite map_map. reflexivity. Qed.

Lemma enforce_vars_spec : forall rest done domain,
  domain = done ++ rest ->
  NoDup (map fst domain) ->
  Forall (fun e => NoDup (snd e)) rest ->
  enforce_vars domain (map fst rest) (map node_filter done ++ rest)
  = (map node_filter domain, Ret tt).
Proof.
  induction rest as [|[v ws] rest IH]; intros done domain -> ND HS; simpl.
  - now rewrite !app_nil_r.
  - assert (~ In v (map fst done)) as Hv.
    { rewrite map_app in ND. simpl in ND. apply NoDup_remove_2 in ND.
      intros H. apply ND, in_or_app. auto. }
    rewrite (dict_get_app_mid var_eqb var_eqb_spec) by auto.
    inv HS. simpl in *.
    rewrite (enforce_words_spec v ws [] (map node_filter done ++ (v, ws) :: rest)); simpl; auto.
    + rewrite (dict_set_app_mid var_eqb var_eqb_spec) by (rewrite node_filter_keys; auto).
      replace (map node_filter done ++ (v, filter (length_ok v) ws) :: rest)
        with (map node_filter (done ++ [(v, ws)]) ++ rest)
        by (rewrite map_app, <- app_assoc; reflexivity).
      apply IH; auto. now rewrite <- app_assoc.
    + apply (dict_get_app_mid var_eqb var_eqb_spec). rewrite node_filter_keys; auto.
Qed.

Lemma enforce_node_consistency_spec d :
  store_ok d -> enforce_node_consistency d = (map node_filter d, Ret tt).
Proof.
  intros [ND HS]. unfold enforce_node_consistency.
  apply (enforce_vars_spec d [] d); auto.
Qed.

Lemma node_filter_get d var :
  dict_get var_eqb (map node_filter d) var
  = option_map (filter (length_ok var)) (dict_get var_eqb d var).
Proof.
  induction d as [|[v s] d IH]; simpl; auto.
  destruct (var_eqb_spec var v) as [->|]; simpl; auto.
Qed.

Lemma node_filter_consistent d : node_consistent (map node_filter d).
Proof.
  intros var s w H Hw. rewrite node_filter_get in H.
  destruct (dict_get var_eqb d var); simpl in H; [|discriminate].
  injection H as <-. apply filter_In in Hw as [_ Hw]. now apply Nat.eqb_eq in Hw.
Qed.

(** C7: after [enforce_node_consistency], which returns normally on a store
    whose keys and words are duplicate-free, every slot keeps its place in
    the store and every word left in its domain has the length of the
    slot; the words of another length are removed and no others are. *)
Theorem enforce_node_consistency_filters (d : domains) :
  store_okb d = true ->
  exists d',
    enforce_node_consistency d = (d', Ret tt)
    /\ map fst d' = map fst d
    /\ forall var s, dict_get var_eqb d var = Some s ->
         exists s', dict_get var_eqb d' var = Some s'
           /\ (forall w, In w s' -> String.length w = var_length var)
           /\ (forall w, In w s' <-> In w s /\ String.length w = var_length var).
Proof.
  intros H. exists (map node_filter d). split; [|split].
  - now apply enforce_node_consistency_spec, store_okb_ok.
  - apply node_filter_keys.
  - intros var s Hs. rewrite node_filter_get, Hs. simpl.
    eexists. split; [reflexivity|].
    assert (forall w, In w (filter (length_ok var) s)
                      <-> In w s /\ String.length w = var_length var) as E.
    { intros w. rewrite filter_In. unfold length_ok. now rewrite Nat.eqb_eq. }
    split; auto. intros w Hw. now apply E in Hw.
Qed.

(** ** [sorted] *)

Section SortedFacts.
Context {A : Type}.
Variable leb : A -> A -> bool.

Lemma insert_sorted_perm a l : Permutation (insert_sorted leb a l) (a :: l).
Proof.
  induction l as [|b l IH]; simpl; auto.
  destruct (leb a b); auto.
  rewrite IH. apply perm_swap.
Qed.

Lemma sorted_perm l : Permutation (sorted leb l) l.
Proof.
  induction l as [|a l IH]; simpl; auto.
  rewrite insert_sorted_perm. now constructor.
Qed.

Lemma sorted_In l a : In a (sorted leb l) <-> In a l.
Proof.
  split; apply Permutation_in; [|symmetry]; apply sorted_perm.
Qed.

Hypothesis leb_total : forall a b, leb a b = true \/ leb b a = true.
Hypothesis leb_trans : forall a b c, leb a b = true -> leb b c = true -> leb a c = true.

Lemma sorted_head_min : forall l h t,
  sorted leb l = h :: t -> forall a, In a l -> leb h a = true.
Proof.
  induction l as [|b l IH]; intros h t E a Ha; simpl in *; [tauto|].
  destruct (sorted leb l) as [|h' t'] eqn:S; simpl in E.
  - assert (l = []) as ->.
    { apply Permutation_nil. rewrite <- S. apply sorted_perm. }
    injection E as <- <-. destruct Ha as [<-|[]].
    destruct (leb_total b b); auto.
  - specialize (IH h' t' eq_refl).
    destruct (leb b h') eqn:L; injection E as <- <-.
    + destruct Ha as [<-|Ha].
      * destruct (leb_total b b); auto.
      * eauto.
    + destruct Ha as [<-|Ha]; auto.
      destruct (leb_total h' b); congruence.
Qed.
End SortedFacts.

(** ** [select_unassigned_variable] *)

Section DictSetFacts.
Context {K V : Type}.
Variable eqb : K -> K -> bool.
Hypothesis eqb_spec : forall x y, reflect (x = y) (eqb x y).

Lemma dict_set_In (d : dict K V) k0 v0 k v :
  In (k, v) (dict_set eqb d k0 v0) -> (k = k0 /\ v = v0) \/ In (k, v) d.
Proof.
  induction d as [|[k1 v1] d IH]; simpl.
  - intros [E|[]]. injection E as <- <-. auto.
  - destruct (eqb_spec k0 k1) as [->|]; simpl.
    + intros [E|H]; auto. injection E as <- <-. auto.
    + intros [E|H]; auto. apply IH in H. tauto.
Qed.

Lemma dict_set_keys (d : dict K V) k0 v0 k :
  In k (map fst (dict_set eqb d k0 v0)) <-> k = k0 \/ In k (map fst d).
Proof.
  destruct (in_dec (fun x y => reflect_dec _ _ (eqb_spec x y)) k0 (map fst d)) as [H|H].
  - rewrite (dict_set_keys_mem eqb eqb_spec) by auto. split; auto.
    intros [->|]; auto.
  - rewrite (dict_set_new eqb eqb_spec) by auto.
    rewrite map_app, in_app_iff. simpl. intuition.
Qed.
End DictSetFacts.

Lemma fill_unassigned_spec d a : forall vars acc,
  incl vars (map fst d) ->
  (forall v s, In (v, s) acc ->
     dict_mem var_eqb a v = false /\ dict_get var_eqb d v = Some s) ->
  exists u,
    fill_unassigned d a vars acc = Ret u
    /\ (forall v s, In (v, s) u ->
          dict_mem var_eqb a v = false /\ dict_get var_eqb d v = Some s)
    /\ (forall v, In v (map fst acc) \/ (In v vars /\ dict_mem var_eqb a v = false) ->
          In v (map fst u)).
Proof.
  induction vars as [|var vars IH]; intros acc Hin Hacc; simpl.
  - exists acc. split; [reflexivity|]. split; [exact Hacc|].
    intros v [H|[[] _]]; auto.
  - assert (incl vars (map fst d)) as Hin' by (intros v Hv; apply Hin; now right).
    destruct (dict_mem var_eqb a var) eqn:M; simpl.
    + destruct (IH acc Hin' Hacc) as (u & E & H1 & H2).
      exists u. split; [exact E|]. split; [exact H1|].
      intros v [H|[[<-|H] Hm]]; try congruence; apply H2; auto.
    + destruct (dict_get var_eqb d var) as [s|] eqn:G.
      2:{ apply (dict_get_None var_eqb var_eqb_spec) in G. exfalso. apply G, Hin. now left. }
      unfold dict_lookup. rewrite G. simpl.
      destruct (IH (dict_set var_eqb acc var s) Hin') as (u & E & H1 & H2).
      { intros v s' H. apply (dict_set_In var_eqb var_eqb_spec) in H as [[-> ->]|H]; auto. }
      exists u. split; [exact E|]. split; [exact H1|].
      intros v H. apply H2. rewrite (dict_set_keys var_eqb var_eqb_spec).
      destruct H as [H|[[<-|H] Hm]]; auto.
Qed.

Lemma select_unassigned_variable_spec d a v0 :
  In v0 (map fst d) -> dict_mem var_eqb a v0 = false ->
  exists var s,
    select_unassigned_variable d a = Ret var
    /\ In var (map fst d)
    /\ dict_mem var_eqb a var = false
    /\ dict_get var_eqb d var = Some s
    /\ forall u su, dict_mem var_eqb a u = false -> dict_get var_eqb d u = Some su ->
         List.length s <= List.length su.
Proof.
  intros Hv0 Hm0.
  destruct (fill_unassigned_spec d a (map fst d) []) as (u & E & H1 & H2).
  { apply incl_refl. }
  { intros v s []. }
  unfold select_unassigned_variable. rewrite E. simpl.
  set (leb := fun item1 item2 : Var * list string =>
                List.length (snd item1) <=? List.length (snd item2)).
  assert (In v0 (map fst u)) as Hu by auto.
  destruct (sorted leb u) as [|[var s] t] eqn:S.
  { exfalso. apply in_map_iff in Hu as (e & _ & He).
    apply (sorted_In leb) in He. rewrite S in He. destruct He. }
  simpl. exists var, s.
  assert (In (var, s) u) as Hin.
  { apply (sorted_In leb). rewrite S. now left. }
  destruct (H1 _ _ Hin) as [Hm Hg].
  repeat split; auto.
  - eapply dict_get_key; eauto using var_eqb_spec.
  - intros x sx Hx Hgx.
    assert (In x (map fst u)) as Hxu.
    { apply H2. right. split; auto. eapply dict_get_key; eauto using var_eqb_spec. }
    apply in_map_iff in Hxu as ([x' sx'] & Ex & Hxu). simpl in Ex. subst x'.
    destruct (H1 _ _ Hxu) as [_ Hgx']. rewrite Hgx in Hgx'. injection Hgx' as <-.
    assert (leb (var, s) (x, sx) = true) as L.
    { eapply (sorted_head_min leb); eauto; unfold leb; intros.
      - destruct (Nat.leb_spec (List.length (snd a0)) (List.length (snd b)));
          destruct (Nat.leb_spec (List.length (snd b)) (List.length (snd a0))); auto; lia.
      - rewrite Nat.leb_le in *. lia. }
    unfold leb in L. simpl in L. now apply Nat.leb_le.
Qed.

Lemma assignment_incomplete d a :
  assignment_complete d a = false ->
  exists v, In v (map fst d) /\ dict_mem var_eqb a v = false.
Proof.
  unfold assignment_complete. intros H.
  induction (map fst d) as [|v l IH]; simpl in H; [discriminate|].
  destruct (dict_mem var_eqb a v) eqn:M; simpl in H.
  - destruct (IH H) as (u & Hu & Hm). exists u. split; auto. now right.
  - exists v. split; auto. now left.
Qed.

(** C9: for an assignment that does not cover every slot of the store,
    [select_unassigned_variable] returns one slot; it is a slot of the
    store, it is not in the assignment, and no unassigned slot has a
    smaller domain. *)
Theorem select_unassigned_variable_mrv (d : domains) (a : assignment) :
  assignment_complete d a = false ->
  exists var s,
    select_unassigned_variable d a = Ret var
    /\ In var (map fst d)
    /\ dict_mem var_eqb a var = false
    /\ dict_get var_eqb d var = Some s
    /\ forall u su, In u (map fst d) -> dict_mem var_eqb a u = false ->
         dict_get var_eqb d u = Some su -> List.length s <= List.length su.
Proof.
  intros H. apply assignment_incomplete in H as (v & Hv & Hm).
  destruct (select_unassigned_variable_spec d a v Hv Hm) as (var & s & E & H1 & H2 & H3 & H4).
  exists var, s. repeat split; auto. intros u su _. apply H4.
Qed.

(** ** What a well-formed puzzle gives *)

Lemma crossing_unpack cw x y p :
  crossing cw x y = Some p <-> unpack_overlap cw x y = Ret p.
Proof.
  unfold crossing, unpack_overlap.
  destruct (dict_get arc_eqb (overlaps cw) (x, y)) as [[q|]|]; split; congruence.
Qed.

Lemma wf_slot_of cw x :
  wf_crossword cw = true -> In x (variables cw) -> wf_slot cw x = true.
Proof. unfold wf_crossword. rewrite forallb_forall. auto. Qed.

Lemma wf_neighbor cw x y :
  wf_crossword cw = true -> In x (variables cw) -> In y (neighbors cw x) ->
  In y (variables cw) /\ exists ix iy, crossing cw x y = Some (ix, iy).
Proof.
  intros W Hx Hy. pose proof (wf_slot_of cw x W Hx) as S.
  unfold wf_slot in S. apply andb_true_iff in S as [S _].
  rewrite forallb_forall in S. specialize (S y Hy).
  apply andb_true_iff in S as [S1 S2]. apply var_mem_In in S1. split; auto.
  destruct (crossing cw x y) as [[ix iy]|]; [eauto|discriminate].
Qed.

Lemma wf_crossing cw x y ix iy :
  wf_crossword cw = true -> In x (variables cw) -> In y (variables cw) ->
  crossing cw x y = Some (ix, iy) ->
  In y (neighbors cw x) /\ ix < var_length x /\ iy < var_length y
  /\ crossing cw y x = Some (iy, ix).
Proof.
  intros W Hx Hy C. pose proof (wf_slot_of cw x W Hx) as S.
  unfold wf_slot in S. apply andb_true_iff in S as [_ S].
  rewrite forallb_forall in S. specialize (S y Hy). rewrite C in S.
  rewrite !andb_true_iff in S. destruct S as [[[S1 S2] S3] S4].
  apply var_mem_In in S1. apply Nat.ltb_lt in S2, S3.
  destruct (crossing cw y x) as [[jy jx]|]; [|discriminate].
  apply andb_true_iff in S4 as [E1 E2]. apply Nat.eqb_eq in E1, E2. subst. auto.
Qed.

Lemma string_get_lt : forall (s : string) (n : nat),
  n < String.length s -> exists c, String.get n s = Some c.
Proof.
  induction s as [|c s IH]; intros n H; simpl in *; [lia|].
  destruct n; [eauto|]. apply IH. lia.
Qed.

Lemma wf_assignment_ok cw a :
  wf_assignment cw a = true -> NoDup (map fst a) /\ incl (map fst a) (variables cw).
Proof.
  unfold wf_assignment. rewrite andb_true_iff, forallb_forall. intros [H1 H2]. split.
  - now apply (nodupb_NoDup var_eqb var_eqb_spec).
  - intros v Hv. apply var_mem_In; auto.
Qed.

(** ** [consistent] *)

Lemma has_repeated_value_false vals :
  has_repeated_value vals = false <-> NoDup vals.
Proof.
  unfold has_repeated_value. rewrite (NoDup_count_occ string_dec). split.
  - intros H x. destruct (in_dec string_dec x vals) as [Hx|Hx].
    + destruct (Nat.ltb_spec 1 (count_occ string_dec vals x)); [|lia].
      assert (existsb (fun val => 1 <? count_occ string_dec vals val) vals = true);
        [|congruence].
      apply existsb_exists. exists x. split; auto. now apply Nat.ltb_lt.
    + apply (count_occ_not_In string_dec) in Hx. lia.
  - intros H. destruct (existsb _ vals) eqn:E; auto.
    apply existsb_exists in E as (x & _ & Hx). apply Nat.ltb_lt in Hx.
    specialize (H x). lia.
Qed.

Lemma NoDup_values_distinct (a : assignment) :
  NoDup (map fst a) -> (NoDup (map snd a) <-> distinct_words a).
Proof.
  induction a as [|[x w] a IH]; simpl; intros ND.
  - split; [intros _ ? ? ? []|constructor].
  - inv ND. specialize (IH H2). split.
    + intros NV. inv NV. intros x1 x2 w' [E1|I1] [E2|I2].
      * congruence.
      * injection E1 as <- <-. exfalso. apply H3. now apply (in_map snd) in I2.
      * injection E2 as <- <-. exfalso. apply H3. now apply (in_map snd) in I1.
      * apply IH in H4. eauto.
    + intros D. constructor.
      * intros Hw. apply in_map_iff in Hw as ([y w'] & E & Hy). simpl in E. subst w'.
        assert (x = y) as -> by (apply (D x y w); [now left|now right]).
        apply H1. now apply (in_map fst) in Hy.
      * apply IH. intros x1 x2 w' I1 I2. apply (D x1 x2 w'); now right.
Qed.

Lemma lengths_ok_spec (a : assignment) : forall vars,
  NoDup (map fst a) -> incl vars (map fst a) ->
  exists b, lengths_ok a vars = Ret b
    /\ (b = true <-> forall v w, In v vars -> In (v, w) a -> String.length w = var_length v).
Proof.
  intros vars ND. induction vars as [|v vars IH]; intros Hin; simpl.
  - exists true. split; auto. split; auto. intros _ ? ? [].
  - destruct IH as (b & E & Hb). { intros u Hu. apply Hin. now right. }
    destruct (dict_get var_eqb a v) as [w|] eqn:G.
    2:{ apply (dict_get_None var_eqb var_eqb_spec) in G. exfalso. apply G, Hin. now left. }
    unfold dict_lookup. rewrite G. simpl.
    destruct (Nat.eqb_spec (var_length v) (String.length w)) as [L|L]; simpl.
    + exists b. split; auto. rewrite Hb. split.
      * intros H u wu [<-|Hu] Hi; eauto.
        apply (In_dict_get var_eqb var_eqb_spec) in Hi; auto. congruence.
      * intros H u wu Hu. apply H. now right.
    + exists false. split; auto. split; [discriminate|]. intros H. exfalso. apply L.
      symmetry. apply H; [now left|]. eapply dict_get_In; eauto using var_eqb_spec.
Qed.

Section Conflicts.
Variable cw : Crossword.
Variable a : assignment.
Hypothesis Hwf : wf_crossword cw = true.
Hypothesis Hnd : NoDup (map fst a).
Hypothesis Hin : incl (map fst a) (variables cw).
Hypothesis Hlen : lengths_match a.

Lemma no_conflict_with_spec var : forall ns,
  In var (map fst a) -> incl ns (neighbors cw var) ->
  exists b, no_conflict_with cw a var ns = Ret b /\ (b = true <-> agree_with cw a var ns).
Proof.
  intros ns Hvar. induction ns as [|n ns IH]; intros Hns; simpl.
  - exists true. split; auto. split; auto. intros _ ? ? ? ? ? [].
  - destruct IH as (b & E & Hb). { intros u Hu. apply Hns. now right. }
    unfold dict_mem. destruct (dict_get var_eqb a n) as [wn|] eqn:Gn.
    + assert (In n (neighbors cw var)) as Hn by (apply Hns; now left).
      assert (In var (variables cw)) as Hv by auto.
      destruct (wf_neighbor cw var n Hwf Hv Hn) as (Hnv & ix & iy & C).
      destruct (wf_crossing cw var n ix iy Hwf Hv Hnv C) as (_ & Lx & Ly & _).
      rewrite (proj1 (crossing_unpack cw var n (ix, iy)) C). simpl.
      destruct (dict_get var_eqb a var) as [wv|] eqn:Gv.
      2:{ apply (dict_get_None var_eqb var_eqb_spec) in Gv. tauto. }
      unfold dict_lookup. rewrite Gv, Gn. simpl.
      pose proof (dict_get_In var_eqb var_eqb_spec _ _ _ Gv) as Iv.
      pose proof (dict_get_In var_eqb var_eqb_spec _ _ _ Gn) as In_.
      destruct (string_get_lt wv ix) as (cx & Gx). { rewrite (Hlen _ _ Iv). auto. }
      destruct (string_get_lt wn iy) as (cy & Gy). { rewrite (Hlen _ _ In_). auto. }
      unfold index. rewrite Gx. simpl. rewrite Gy. simpl.
      destruct (Ascii.eqb_spec cx cy) as [<-|N]; simpl.
      * exists b. split; auto. rewrite Hb. split.
        -- intros H m wv' wm jx jy [<-|Hm] I1 I2 C'; [|eapply H; eauto].
           apply (In_dict_get var_eqb var_eqb_spec) in I1, I2; auto.
           rewrite Gv in I1. rewrite Gn in I2. rewrite C in C'.
           injection I1 as <-. injection I2 as <-. injection C' as <- <-.
           exists cx. auto.
        -- intros H m wv' wm jx jy Hm. apply H. now right.
      * exists false. split; auto. split; [discriminate|]. intros H. exfalso.
        destruct (H n wv wn ix iy) as (c & G1 & G2); auto; [now left|]. congruence.
    + exists b. split; auto. rewrite Hb. split.
      * intros H m wv' wm jx jy [<-|Hm] I1 I2 C'; [|eapply H; eauto].
        apply (In_dict_get var_eqb var_eqb_spec) in I2; auto. congruence.
      * intros H m wv' wm jx jy Hm. apply H. now right.
Qed.

Lemma no_conflicts_spec : forall vars,
  incl vars (map fst a) ->
  exists b, no_conflicts cw a vars = Ret b
    /\ (b = true <-> forall var, In var vars -> agree_with cw a var (neighbors cw var)).
Proof.
  induction vars as [|var vars IH]; intros Hvars; simpl.
  - exists true. split; auto. split; auto. intros _ ? [].
  - destruct IH as (b & E & Hb). { intros u Hu. apply Hvars. now right. }
    destruct (no_conflict_with_spec var (neighbors cw var)) as (b1 & E1 & Hb1).
    { apply Hvars. now left. } { apply incl_refl. }
    rewrite E1. simpl. destruct b1.
    + exists b. split; auto. rewrite Hb. split.
      * intros H v [<-|Hv]; auto. now apply Hb1.
      * intros H v Hv. apply H. now right.
    + exists false. split; auto. split; [discriminate|]. intros H.
      apply Hb1. apply H. now left.
Qed.

Lemma agree_with_crossings :
  (forall var, In var (map fst a) -> agree_with cw a var (neighbors cw var))
  <-> crossings_agree cw a.
Proof.
  split.
  - intros H x y wx wy ix iy Ix Iy C.
    assert (In x (map fst a)) as Hx by (apply (in_map fst) in Ix; auto).
    assert (In y (map fst a)) as Hy by (apply (in_map fst) in Iy; auto).
    destruct (wf_crossing cw x y ix iy Hwf) as (Hn & _); auto.
    eapply (H x Hx y); eauto.
  - intros H var Hvar n wv wn ix iy Hn Iv In_ C. eapply H; eauto.
Qed.
End Conflicts.

Lemma consistent_spec cw a :
  wf_crossword cw = true -> wf_assignment cw a = true ->
  exists b, consistent cw a = Ret b
    /\ (b = true <-> distinct_words a /\ lengths_match a /\ crossings_agree cw a).
Proof.
  intros W WA. apply wf_assignment_ok in WA as [ND Hin].
  unfold consistent.
  destruct (has_repeated_value (map snd a)) eqn:R.
  - exists false. split; auto. split; [discriminate|]. intros (D & _).
    apply NoDup_values_distinct in D; auto. apply has_repeated_value_false in D. congruence.
  - apply has_repeated_value_false, NoDup_values_distinct in R; auto.
    destruct (lengths_ok_spec a (map fst a) ND (incl_refl _)) as (b1 & E1 & Hb1).
    rewrite E1. simpl.
    assert (b1 = true <-> lengths_match a) as Hb1'.
    { rewrite Hb1. split; intros H x w; [|intros _]; intros Hx; apply H; auto.
      now apply (in_map fst) in Hx. }
    destruct b1.
    + assert (lengths_match a) as L by now apply Hb1'.
      destruct (no_conflicts_spec cw a W ND Hin L (map fst a) (incl_refl _)) as (b & E & Hb).
      exists b. split; auto. rewrite Hb, (agree_with_crossings cw a W Hin). tauto.
    + exists false. split; auto. split; [discriminate|]. intros (_ & L & _).
      now apply Hb1'.
Qed.

(** C8: on a well-formed puzzle and an assignment over its slots,
    [consistent] returns [True] if and only if (a) no two distinct slots
    are bound to the same word, (b) every bound word has the length of its
    slot and (c) the words of any two crossing slots of the assignment
    agree at the crossing; it returns [False] as soon as one of the three
    fails. *)
Theorem consistent_iff (cw : Crossword) (a : assignment) :
  wf_crossword cw = true -> wf_assignment cw a = true ->
  (consistent cw a = Ret true
   <-> distinct_words a /\ lengths_match a /\ crossings_agree cw a)
  /\ (consistent cw a = Ret false
      <-> ~ (distinct_words a /\ lengths_match a /\ crossings_agree cw a)).
Proof.
  intros W WA. destruct (consistent_spec cw a W WA) as (b & E & Hb). rewrite E.
  destruct b; split; split; intros H; try discriminate; auto.
  - now apply Hb.
  - exfalso. apply H. now apply Hb.
  - apply Hb in H. discriminate.
  - intros H'. apply Hb in H'. discriminate.
Qed.

(** ** The passes keep the keys of the store *)

Lemma enforce_words_keys var : forall ws d,
  map fst (fst (enforce_words var ws d)) = map fst d.
Proof.
  induction ws as [|w ws IH]; intros d; simpl; auto.
  destruct (negb (String.length w =? var_length var)); auto.
  pose proof (domains_remove_keys d var w) as F.
  destruct (domains_remove d var w) as [d' [[]| |]]; simpl in *; auto.
  now rewrite IH.
Qed.

Lemma enforce_vars_keys domain : forall vars d,
  map fst (fst (enforce_vars domain vars d)) = map fst d.
Proof.
  induction vars as [|v vars IH]; intros d; simpl; auto.
  destruct (dict_get var_eqb domain v) as [ws|]; simpl; auto.
  pose proof (enforce_words_keys v ws d) as F.
  destruct (enforce_words v ws d) as [d' [[]| |]]; simpl in *; auto.
  now rewrite IH.
Qed.

Lemma enforce_node_consistency_keys d :
  map fst (fst (enforce_node_consistency d)) = map fst d.
Proof. apply enforce_vars_keys. Qed.

Lemma ac3_loop_keys cw : forall fuel d queue,
  map fst (fst (ac3_loop cw fuel d queue)) = map fst d.
Proof.
  induction fuel as [|fuel IH]; intros d queue; simpl;
    destruct (list_pop queue) as [[queue' [x y]]|]; simpl; auto.
  pose proof (revise_keys cw d x y) as F.
  destruct (revise cw d x y) as [d' [[|]| |]]; simpl in *; auto.
  - destruct (dict_get var_eqb d' x) as [s|]; simpl; auto.
    destruct (List.length s =? 0); simpl; auto. now rewrite IH.
  - now rewrite IH.
Qed.

Lemma ac3_keys cw d arcs : map fst (fst (ac3 cw d arcs)) = map fst d.
Proof.
  unfold ac3. destruct arcs; simpl; auto.
  destruct (initial_arcs cw (map fst d) []); simpl; auto.
  apply ac3_loop_keys.
Qed.

(** ** A failed [ac3] leaves an empty domain *)

Lemma ac3_loop_false cw : forall fuel d queue d2,
  ac3_loop cw fuel d queue = (d2, Ret false) ->
  exists x, dict_get var_eqb d2 x = Some [].
Proof.
  induction fuel as [|fuel IH]; intros d queue d2; simpl;
    destruct (list_pop queue) as [[queue' [x y]]|]; simpl; try discriminate.
  destruct (revise cw d x y) as [d' [[|]| |]]; simpl; try discriminate; eauto.
  destruct (dict_get var_eqb d' x) as [s|] eqn:G; simpl; try discriminate.
  destruct s as [|w s]; simpl; eauto.
  intros E. injection E as <-. eauto.
Qed.

Lemma ac3_false cw d d2 :
  ac3 cw d None = (d2, Ret false) -> exists x, dict_get var_eqb d2 x = Some [].
Proof.
  unfold ac3. destruct (initial_arcs cw (map fst d) []); try discriminate.
  apply ac3_loop_false.
Qed.

(** ** The search on a store with an empty domain *)

(** With an empty domain in the store and nothing assigned, the slot that
    is selected has an empty domain and there is no word to try. *)
Lemma empty_domain_selected cw d x :
  dict_get var_eqb d x = Some [] ->
  exists var,
    select_unassigned_variable d [] = Ret var
    /\ dict_get var_eqb d var = Some []
    /\ order_domain_values cw d var [] = Ret [].
Proof.
  intros G.
  destruct (select_unassigned_variable_spec d [] x) as (var & s & E & _ & _ & Gs & Hmin).
  { eapply dict_get_key; eauto using var_eqb_spec. }
  { reflexivity. }
  specialize (Hmin x [] eq_refl G). destruct s; [|simpl in Hmin; lia].
  exists var. split; auto. split; auto.
  unfold order_domain_values, dict_lookup. rewrite Gs. reflexivity.
Qed.

Lemma backtrack_empty_domain cw d x fuel calls :
  dict_get var_eqb d x = Some [] ->
  backtrack cw d (S fuel) [] calls = (S calls, Ret None).
Proof.
  intros G. destruct (empty_domain_selected cw d x G) as (var & E & _ & O).
  simpl. destruct d as [|e d]; [discriminate|]. simpl List.length. simpl Nat.eqb.
  rewrite E, O. reflexivity.
Qed.

(** C1, amended: when [ac3], called from [solve] with no arc list, empties
    the domain of some slot and returns [False], [solve] returns [None]
    without a full search, but not without entering [backtrack]: it is
    entered exactly once, on the empty assignment, selects a slot whose
    domain is empty, has no word to try and does not recurse. *)
Theorem solve_after_failed_ac3 (cw : Crossword) (d d1 d2 : domains) :
  enforce_node_consistency d = (d1, Ret tt) ->
  ac3 cw d1 None = (d2, Ret false) ->
  (exists x, dict_get var_eqb d2 x = Some [])
  /\ (exists var, select_unassigned_variable d2 [] = Ret var
                  /\ dict_get var_eqb d2 var = Some []
                  /\ order_domain_values cw d2 var [] = Ret [])
  /\ solve cw d = mkRun d2 1 (Ret None).
Proof.
  intros E1 E2. unfold solve. rewrite E1, E2.
  destruct (ac3_false cw d1 d2 E2) as (x & G).
  split; [eauto|]. split; [now apply (empty_domain_selected cw d2 x)|].
  now rewrite (backtrack_empty_domain cw d2 x (List.length d2) 0 G).
Qed.

(** ** Soundness of the search *)

Lemma select_unassigned_variable_ret d a var :
  select_unassigned_variable d a = Ret var ->
  In var (map fst d) /\ dict_mem var_eqb a var = false.
Proof.
  destruct (fill_unassigned_spec d a (map fst d) []) as (u & E & H1 & _).
  { apply incl_refl. }
  { intros v s []. }
  unfold select_unassigned_variable. rewrite E. simpl.
  set (leb := fun item1 item2 : Var * list string =>
                List.length (snd item1) <=? List.length (snd item2)).
  destruct (sorted leb u) as [|[v s] t] eqn:S; simpl; [discriminate|].
  intros H. injection H as <-.
  assert (In (v, s) u) as Hin by (apply (sorted_In leb); rewrite S; now left).
  destruct (H1 _ _ Hin) as [Hm Hg]. split; auto.
  eapply dict_get_key; eauto using var_eqb_spec.
Qed.

Lemma over_extend d a var value :
  over d a -> In var (map fst d) -> dict_mem var_eqb a var = false ->
  dict_set var_eqb a var value = a ++ [(var, value)]
  /\ over d (a ++ [(var, value)]).
Proof.
  intros [ND Hin] Hv Hm. apply (dict_mem_false var_eqb var_eqb_spec) in Hm.
  split; [now apply (dict_set_new var_eqb var_eqb_spec)|].
  split; rewrite map_app; simpl.
  - apply NoDup_app; auto.
    + constructor; [intros []|constructor].
    + intros u Hu [<-|[]]. auto.
  - apply incl_app; auto. intros u [<-|[]]. auto.
Qed.

Lemma over_complete d a :
  over d a -> List.length a = List.length d -> assignment_complete d a = true.
Proof.
  intros [ND Hin] L. unfold assignment_complete. apply forallb_forall. intros v Hv.
  apply (dict_mem_In var_eqb var_eqb_spec).
  apply (NoDup_length_incl (l' := map fst d) ND); auto. rewrite !length_map. lia.
Qed.

Section Soundness.
Variable cw : Crossword.
Variable d : domains.

Lemma try_values_sound rec a var :
  sound_call cw d rec -> over d a ->
  In var (map fst d) -> dict_mem var_eqb a var = false ->
  forall values calls calls' r,
    try_values cw rec a var values calls = (calls', Ret (Some r)) -> solution cw d r.
Proof.
  intros Hrec Ha Hv Hm. induction values as [|value values IH]; intros calls calls' r; simpl.
  - discriminate.
  - destruct (over_extend d a var value Ha Hv Hm) as [-> Hov].
    destruct (consistent cw (a ++ [(var, value)])) as [[|]| |] eqn:C; try discriminate.
    + destruct (rec (a ++ [(var, value)]) calls) as [c [[r'|]| |]] eqn:R; try discriminate.
      * intros E. injection E as <- <-. eapply Hrec; eauto.
      * apply IH.
    + apply IH.
Qed.

Lemma backtrack_sound : forall fuel, sound_call cw d (backtrack cw d fuel).
Proof.
  induction fuel as [|fuel IH]; intros a calls calls' r Ha C; simpl; [discriminate|].
  destruct (Nat.eqb_spec (List.length a) (List.length d)) as [L|L].
  - intros E. injection E as <- <-. split; auto. split; auto. now apply over_complete.
  - destruct (select_unassigned_variable d a) as [var| |] eqn:S; try discriminate.
    apply select_unassigned_variable_ret in S as [Hv Hm].
    destruct (order_domain_values cw d var a) as [values| |]; try discriminate.
    eapply try_values_sound; eauto.
Qed.
End Soundness.

Lemma over_empty d : over d [].
Proof. split; [constructor|intros v []]. Qed.

Lemma solve_result cw d a :
  result (solve cw d) = Ret (Some a) ->
  solution cw (final_domains (solve cw d)) a
  /\ map fst (final_domains (solve cw d)) = map fst d.
Proof.
  unfold solve.
  pose proof (enforce_node_consistency_keys d) as K1.
  destruct (enforce_node_consistency d) as [d1 [[]| |]];
    cbn [fst] in K1; try (cbn; discriminate).
  pose proof (ac3_keys cw d1 None) as K2.
  destruct (ac3 cw d1 None) as [d2 [b| |]];
    cbn [fst] in K2; try (cbn; discriminate).
  destruct (backtrack cw d2 (S (List.length d2)) [] 0) as [calls r] eqn:B.
  cbn [result final_domains].
  intros ->. split; [|congruence].
  eapply (backtrack_sound cw d2); eauto using over_empty.
Qed.

Lemma assignment_complete_keys d d' a :
  map fst d = map fst d' -> assignment_complete d a = assignment_complete d' a.
Proof. unfold assignment_complete. now intros ->. Qed.

(** C3: whenever [solve] returns an assignment rather than [None], the
    assignment binds every slot of the store and [consistent] accepts it;
    on a well-formed puzzle this means a word for every slot of the
    puzzle, pairwise distinct words, matching lengths and agreement at
    every crossing. *)
Theorem solve_sound (cw : Crossword) (d : domains) (a : assignment) :
  result (solve cw d) = Ret (Some a) ->
  assignment_complete d a = true
  /\ consistent cw a = Ret true
  /\ (wf_crossword cw = true -> wf_domains cw d = true ->
      (forall var, In var (variables cw) -> exists w, In (var, w) a)
      /\ distinct_words a /\ lengths_match a /\ crossings_agree cw a).
Proof.
  intros H. apply solve_result in H as [([ND Hin] & Hc & Hk) K].
  rewrite (assignment_complete_keys _ d a K) in Hc. split; auto. split; auto.
  intros W WD. pose proof (wf_domains_keys cw d WD) as V. split.
  - intros var Hvar. unfold assignment_complete in Hc. rewrite forallb_forall in Hc.
    rewrite <- V in Hvar. specialize (Hc var Hvar). unfold dict_mem in Hc.
    destruct (dict_get var_eqb a var) as [w|] eqn:G; [|discriminate].
    exists w. eapply dict_get_In; eauto using var_eqb_spec.
  - assert (wf_assignment cw a = true) as WA.
    { unfold wf_assignment. apply andb_true_iff. split.
      - now apply (nodupb_NoDup var_eqb var_eqb_spec).
      - apply forallb_forall. intros v Hv. apply var_mem_In. rewrite <- V, <- K. auto. }
    destruct (consistent_spec cw a W WA) as (b & E & Hb).
    rewrite E in Hk. injection Hk as ->. now apply Hb.
Qed.

(** ** What [revise] computes *)

Lemma has_match_spec w xo yo : forall ys,
  (exists c, String.get xo w = Some c) ->
  (forall yw, In yw ys -> exists c, String.get yo yw = Some c) ->
  has_match w xo yo ys = Ret (supported ys xo yo w).
Proof.
  intros ys [cx Gx]. induction ys as [|yw ys IH]; intros Hy; simpl; auto.
  destruct (Hy yw) as [cy Gy]; [now left|].
  unfold index, agreeb. rewrite Gx, Gy. simpl.
  destruct (Ascii.eqb cx cy); simpl; auto.
  rewrite IH; auto. intros yw' H. apply Hy. now right.
Qed.

Lemma revise_words_spec domain x y xo yo ys : forall xs kept d revised,
  dict_get var_eqb domain y = Some ys ->
  (forall w, In w xs -> has_match w xo yo ys = Ret (supported ys xo yo w)) ->
  dict_get var_eqb d x = Some (kept ++ xs) ->
  NoDup (kept ++ xs) ->
  revise_words domain x y xo yo xs d revised
  = (dict_set var_eqb d x (kept ++ filter (supported ys xo yo) xs),
     Ret (revised || negb (forallb (supported ys xo yo) xs))).
Proof.
  induction xs as [|w xs IH]; intros kept d revised Gy Hm Gx ND; simpl.
  - rewrite (dict_set_same_value var_eqb var_eqb_spec); auto.
    now rewrite orb_false_r.
  - rewrite Gy, (Hm w) by now left.
    assert (forall w', In w' xs -> has_match w' xo yo ys = Ret (supported ys xo yo w'))
      as Hm' by (intros; apply Hm; now right).
    destruct (supported ys xo yo w) eqn:E; simpl.
    + rewrite (IH (kept ++ [w]) d); rewrite <- ?app_assoc; simpl; auto.
    + unfold domains_remove, set_remove. rewrite Gx.
      destruct (in_dec string_dec w (kept ++ w :: xs)) as [_|N];
        [|exfalso; apply N, in_or_app; simpl; auto].
      simpl. rewrite remove_NoDup_mid by auto.
      rewrite (IH kept); auto.
      * rewrite (dict_set_set var_eqb var_eqb_spec). now rewrite orb_true_r.
      * apply (dict_get_set_same var_eqb var_eqb_spec).
      * eapply NoDup_remove_1; eauto.
Qed.

(** ** The invariant of the consistency passes *)

Section Pruning.
Variable cw : Crossword.
Variable sol : assignment.
Hypothesis Hwf : wf_crossword cw = true.
Hypothesis Hsol_wf : wf_assignment cw sol = true.
Hypothesis Hsol_all : forall v, In v (variables cw) -> exists w, In (v, w) sol.
Hypothesis Hsol_ok : consistent cw sol = Ret true.

Lemma sol_props : distinct_words sol /\ lengths_match sol /\ crossings_agree cw sol.
Proof.
  destruct (consistent_spec cw sol Hwf Hsol_wf) as (b & E & Hb).
  rewrite E in Hsol_ok. injection Hsol_ok as ->. now apply Hb.
Qed.

Lemma good_get d v : good cw sol d -> In v (variables cw) ->
  exists s, dict_get var_eqb d v = Some s /\ NoDup s.
Proof.
  intros (K & [ND HS] & _) Hv. rewrite <- K in Hv.
  destruct (dict_get var_eqb d v) as [s|] eqn:G.
  - exists s. split; auto. apply (dict_get_In var_eqb var_eqb_spec) in G.
    rewrite Forall_forall in HS. apply (HS _ G).
  - apply (dict_get_None var_eqb var_eqb_spec) in G. tauto.
Qed.

Lemma good_shrink d x xs f :
  good cw sol d -> dict_get var_eqb d x = Some xs ->
  (forall w, In (x, w) sol -> In w xs -> f w = true) ->
  good cw sol (dict_set var_eqb d x (filter f xs)).
Proof.
  intros (K & [ND HS] & NC & Sup) G Hf.
  assert (In x (map fst d)) as Hx by (eapply dict_get_key; eauto using var_eqb_spec).
  pose proof (dict_set_keys_mem var_eqb var_eqb_spec d x (filter f xs) Hx) as K'.
  split; [congruence|]. split; [split|split].
  - congruence.
  - apply Forall_forall. intros [v s] H.
    apply (dict_set_In var_eqb var_eqb_spec) in H as [[-> ->]|H]; simpl.
    + apply NoDup_filter. rewrite Forall_forall in HS.
      apply (HS (x, xs)). eapply dict_get_In; eauto using var_eqb_spec.
    + rewrite Forall_forall in HS. apply (HS _ H).
  - intros v s w Gv Hw. destruct (var_eqb_spec v x) as [->|N].
    + rewrite (dict_get_set_same var_eqb var_eqb_spec) in Gv. injection Gv as <-.
      apply filter_In in Hw as [Hw _]. eapply NC; eauto.
    + rewrite (dict_get_set_other var_eqb var_eqb_spec) in Gv by auto. eapply NC; eauto.
  - intros v w Hvw. destruct (Sup v w Hvw) as (s & Gs & Hs).
    destruct (var_eqb_spec v x) as [->|N].
    + rewrite (dict_get_set_same var_eqb var_eqb_spec). eexists. split; eauto.
      rewrite G in Gs. injection Gs as <-. apply filter_In. auto.
    + rewrite (dict_get_set_other var_eqb var_eqb_spec) by auto. eauto.
Qed.

(** The value the solution gives [x] is supported by the one it gives [y]. *)
Lemma sol_supported d x y xo yo ys w :
  good cw sol d -> In x (variables cw) -> In y (variables cw) ->
  crossing cw x y = Some (xo, yo) ->
  dict_get var_eqb d y = Some ys ->
  In (x, w) sol -> supported ys xo yo w = true.
Proof.
  intros (_ & _ & _ & Sup) Hx Hy C Gy Hw.
  destruct (Hsol_all y Hy) as (wy & Hwy).
  destruct (Sup y wy Hwy) as (s & Gs & Hs). rewrite Gy in Gs. injection Gs as <-.
  destruct sol_props as (_ & _ & CA).
  destruct (CA x y w wy xo yo Hw Hwy C) as (c & G1 & G2).
  unfold supported. apply existsb_exists. exists wy. split; auto.
  unfold agreeb. rewrite G1, G2. apply Ascii.eqb_refl.
Qed.

Lemma revise_spec d x y xo yo :
  good cw sol d -> In x (variables cw) -> In y (variables cw) ->
  crossing cw x y = Some (xo, yo) ->
  exists xs ys,
    dict_get var_eqb d x = Some xs /\ dict_get var_eqb d y = Some ys
    /\ revise cw d x y
       = match xo with
         | 0 => (d, Ret false)
         | S _ => (dict_set var_eqb d x (filter (supported ys xo yo) xs),
                   Ret (negb (forallb (supported ys xo yo) xs)))
         end.
Proof.
  intros Hg Hx Hy C.
  destruct (good_get d x Hg Hx) as (xs & Gx & NDx).
  destruct (good_get d y Hg Hy) as (ys & Gy & NDy).
  exists xs, ys. split; auto. split; auto.
  unfold revise. rewrite (proj1 (crossing_unpack cw x y (xo, yo)) C).
  destruct xo as [|xo']; auto. rewrite Gx.
  destruct (wf_crossing cw x y (S xo') yo Hwf Hx Hy C) as (_ & Lx & Ly & _).
  destruct Hg as (_ & _ & NC & _).
  rewrite (revise_words_spec d x y (S xo') yo ys xs [] d false); auto.
  intros w Hw. apply has_match_spec.
  - apply string_get_lt. now rewrite (NC x xs w Gx Hw).
  - intros yw Hyw. apply string_get_lt. now rewrite (NC y ys yw Gy Hyw).
Qed.

Lemma forallb_filter_id {A : Type} (f : A -> bool) (l : list A) :
  forallb f l = true -> filter f l = l.
Proof.
  induction l as [|a l IH]; simpl; auto.
  destruct (f a); simpl; [|discriminate]. intros H. now rewrite IH.
Qed.

Lemma filter_length_lt {A : Type} (f : A -> bool) (l : list A) :
  forallb f l = false -> List.length (filter f l) < List.length l.
Proof.
  induction l as [|a l IH]; simpl; [discriminate|].
  destruct (f a); simpl.
  - intros H. apply IH in H. lia.
  - intros _. pose proof (filter_length_le f l). lia.
Qed.

Lemma total_size_set d x xs xs' :
  dict_get var_eqb d x = Some xs ->
  total_size (dict_set var_eqb d x xs') + List.length xs
  = total_size d + List.length xs'.
Proof.
  unfold total_size. induction d as [|[v s] d IH]; simpl; [discriminate|].
  destruct (var_eqb_spec x v) as [->|N]; simpl.
  - intros E. injection E as ->. lia.
  - intros E. apply IH in E. lia.
Qed.

(** One call of [revise] on an arc of the puzzle: it returns, the store
    stays good, and a revision removes a word. *)
Lemma revise_step d x y :
  good cw sol d -> In x (variables cw) -> In y (variables cw) ->
  crossing cw x y <> None ->
  exists d' b,
    revise cw d x y = (d', Ret b) /\ good cw sol d'
    /\ (if b then total_size d' < total_size d else d' = d).
Proof.
  intros Hg Hx Hy C. destruct (crossing cw x y) as [[xo yo]|] eqn:E; [clear C|congruence].
  destruct (revise_spec d x y xo yo Hg Hx Hy E) as (xs & ys & Gx & Gy & R).
  destruct xo as [|xo'].
  - exists d, false. auto.
  - exists (dict_set var_eqb d x (filter (supported ys (S xo') yo) xs)),
           (negb (forallb (supported ys (S xo') yo) xs)).
    split; [exact R|]. split.
    + apply good_shrink; auto. intros w Hw _.
      apply (sol_supported d x y (S xo') yo ys w); auto.
    + destruct (forallb (supported ys (S xo') yo) xs) eqn:F; simpl.
      * rewrite forallb_filter_id by auto.
        now apply (dict_set_same_value var_eqb var_eqb_spec).
      * pose proof (total_size_set d x xs (filter (supported ys (S xo') yo) xs) Gx).
        pose proof (filter_length_lt (supported ys (S xo') yo) xs F). lia.
Qed.
End Pruning.

(** ** [ac3] returns and keeps the invariant *)

Lemma list_pop_spec {A : Type} : forall (l l' : list A) (a : A),
  list_pop l = Some (l', a) -> l = l' ++ [a].
Proof.
  induction l as [|b l IH]; intros l' a; simpl; [discriminate|].
  destruct (list_pop l) as [[l'' c]|] eqn:E.
  - intros H. injection H as <- <-. simpl. f_equal. now apply IH.
  - intros H. injection H as <- <-. destruct l; [reflexivity|].
    simpl in E. destruct (list_pop l) as [[? ?]|]; discriminate.
Qed.

Lemma list_pop_None {A : Type} (l : list A) : list_pop l = None -> l = [].
Proof.
  destruct l as [|a l]; simpl; auto. destruct (list_pop l) as [[? ?]|]; discriminate.
Qed.

Lemma max_degree_keys cw d d' :
  map fst d = map fst d' -> max_degree cw d = max_degree cw d'.
Proof.
  unfold max_degree. intros K.
  rewrite <- (map_map fst (fun v => List.length (neighbors cw v)) d).
  rewrite <- (map_map fst (fun v => List.length (neighbors cw v)) d').
  now rewrite K.
Qed.

Lemma degree_le cw d x :
  In x (map fst d) -> List.length (neighbors cw x) <= max_degree cw d.
Proof.
  intros H. unfold max_degree.
  assert (Forall (fun k => k <= list_max (map (fun e => List.length (neighbors cw (fst e))) d))
                 (map (fun e => List.length (neighbors cw (fst e))) d)) as F
    by now apply list_max_le.
  rewrite Forall_forall in F. apply F.
  apply in_map_iff in H as (e & <- & He). apply in_map_iff. eauto.
Qed.

Lemma requeue_length cw x y :
  List.length (requeue cw x y) <= List.length (neighbors cw x).
Proof. unfold requeue. rewrite length_map. apply filter_length_le. Qed.

Section Ac3.
Variable cw : Crossword.
Variable sol : assignment.
Hypothesis Hwf : wf_crossword cw = true.
Hypothesis Hsol_wf : wf_assignment cw sol = true.
Hypothesis Hsol_all : forall v, In v (variables cw) -> exists w, In (v, w) sol.
Hypothesis Hsol_ok : consistent cw sol = Ret true.

Lemma requeue_ok x y : In x (variables cw) -> Forall (arc_ok cw) (requeue cw x y).
Proof.
  intros Hx. apply Forall_forall. intros [n x'] H. unfold requeue in H.
  apply in_map_iff in H as (n' & E & Hn). injection E as <- <-.
  rename n' into n. apply filter_In in Hn as [Hn _].
  destruct (wf_neighbor cw x n Hwf Hx Hn) as (Hnv & ix & iy & C).
  destruct (wf_crossing cw x n ix iy Hwf Hx Hnv C) as (_ & _ & _ & C').
  repeat split; simpl; auto. congruence.
Qed.

Lemma initial_arcs_of_spec var_1 :
  In var_1 (variables cw) ->
  forall ns queue, incl ns (neighbors cw var_1) -> Forall (arc_ok cw) queue ->
  exists queue', initial_arcs_of cw var_1 ns queue = Ret queue' /\ Forall (arc_ok cw) queue'.
Proof.
  intros H1. induction ns as [|n ns IH]; intros queue Hns Hq; simpl; eauto.
  assert (incl ns (neighbors cw var_1)) as Hns' by (intros u Hu; apply Hns; now right).
  destruct (wf_neighbor cw var_1 n Hwf H1) as (Hn & ix & iy & C); [apply Hns; now left|].
  pose proof C as C0. unfold crossing in C.
  destruct (dict_get arc_eqb (overlaps cw) (var_1, n)) as [[p|]|]; try discriminate.
  apply IH; auto. apply Forall_app. split; auto.
  constructor; [|constructor]. repeat split; simpl; auto. congruence.
Qed.

Lemma initial_arcs_spec : forall vars queue,
  incl vars (variables cw) -> Forall (arc_ok cw) queue ->
  exists queue', initial_arcs cw vars queue = Ret queue' /\ Forall (arc_ok cw) queue'.
Proof.
  induction vars as [|v vars IH]; intros queue Hv Hq; simpl; eauto.
  destruct (initial_arcs_of_spec v (Hv v (or_introl eq_refl)) (neighbors cw v) queue)
    as (q1 & E1 & Hq1); auto using incl_refl.
  rewrite E1. simpl. apply IH; auto. intros u Hu. apply Hv. now right.
Qed.

Lemma ac3_loop_spec : forall fuel d queue,
  good cw sol d -> Forall (arc_ok cw) queue ->
  List.length queue + S (max_degree cw d) * total_size d <= fuel ->
  exists d' b, ac3_loop cw fuel d queue = (d', Ret b) /\ good cw sol d'.
Proof.
  induction fuel as [|fuel IH]; intros d queue Hg Hq Hf.
  - destruct queue; [|simpl in Hf; lia]. simpl. eauto.
  - simpl. destruct (list_pop queue) as [[queue' [x y]]|] eqn:P; [|eauto].
    apply list_pop_spec in P. subst queue.
    apply Forall_app in Hq as [Hq' Ha]. inv Ha. destruct H1 as (Hx & Hy & C).
    simpl in Hx, Hy, C. rewrite length_app in Hf. simpl in Hf.
    destruct (revise_step cw sol Hwf Hsol_wf Hsol_all Hsol_ok d x y Hg Hx Hy C)
      as (d' & b & R & Hg' & Hb).
    rewrite R. simpl. destruct b.
    + destruct (good_get cw sol d' x Hg' Hx) as (s & Gs & _). rewrite Gs.
      destruct (List.length s =? 0); [eauto|].
      apply IH; auto.
      * apply Forall_app. split; auto. now apply requeue_ok.
      * assert (map fst d = map fst d') as K.
        { destruct Hg as (K1 & _), Hg' as (K2 & _). congruence. }
        rewrite <- (max_degree_keys cw d d' K).
        pose proof (requeue_length cw x y).
        assert (List.length (neighbors cw x) <= max_degree cw d).
        { apply degree_le. destruct Hg as (K1 & _). now rewrite K1. }
        rewrite length_app. nia.
    + subst d'. apply IH; auto. lia.
Qed.

Lemma ac3_spec d :
  good cw sol d -> exists d' b, ac3 cw d None = (d', Ret b) /\ good cw sol d'.
Proof.
  intros Hg. unfold ac3.
  destruct (initial_arcs_spec (map fst d) []) as (q & E & Hq); auto.
  { destruct Hg as (K & _). rewrite K. apply incl_refl. }
  rewrite E. apply ac3_loop_spec; auto.
Qed.
End Ac3.

(** ** Completeness of the search *)

Lemma count_ruled_out_ret word x y : forall n_words count,
  (exists c, String.get x word = Some c) ->
  (forall nw, In nw n_words -> exists c, String.get y nw = Some c) ->
  exists k, count_ruled_out word x y n_words count = Ret k.
Proof.
  intros n_words count [cx Gx]. revert count.
  induction n_words as [|nw n_words IH]; intros count Hn; simpl; eauto.
  destruct (Hn nw) as [cy Gy]; [now left|].
  unfold index. rewrite Gx, Gy. simpl. apply IH. intros nw' H. apply Hn. now right.
Qed.

Lemma over_length d a : over d a -> List.length a <= List.length d.
Proof.
  intros [ND Hin]. rewrite <- (length_map fst a), <- (length_map fst d).
  now apply NoDup_incl_length.
Qed.

Lemma over_wf_assignment cw d a :
  map fst d = variables cw -> over d a -> wf_assignment cw a = true.
Proof.
  intros K [ND Hin]. unfold wf_assignment. apply andb_true_iff. split.
  - now apply (nodupb_NoDup var_eqb var_eqb_spec).
  - apply forallb_forall. intros v Hv. apply var_mem_In. rewrite <- K. auto.
Qed.

Lemma consistent_sub cw sol a :
  wf_crossword cw = true -> wf_assignment cw sol = true ->
  consistent cw sol = Ret true ->
  wf_assignment cw a = true -> incl a sol -> consistent cw a = Ret true.
Proof.
  intros W WS CS WA Hin.
  destruct (consistent_spec cw sol W WS) as (b & E & Hb).
  rewrite E in CS. injection CS as ->.
  destruct (proj1 Hb eq_refl) as (D & L & C).
  destruct (consistent_spec cw a W WA) as (b' & E' & Hb').
  rewrite E'. f_equal. apply Hb'. split; [|split].
  - intros x y w Hx Hy. apply (D x y w); auto.
  - intros x w Hx. apply L; auto.
  - intros x y wx wy ix iy Hx Hy. apply C; auto.
Qed.

Lemma select_unassigned_variable_total d a :
  over d a -> NoDup (map fst d) -> List.length a <> List.length d ->
  exists var, select_unassigned_variable d a = Ret var
    /\ In var (map fst d) /\ dict_mem var_eqb a var = false.
Proof.
  intros Ha ND L.
  destruct (assignment_complete d a) eqn:C.
  - exfalso. apply L. apply Nat.le_antisymm; [now apply over_length|].
    rewrite <- (length_map fst a), <- (length_map fst d).
    apply NoDup_incl_length; auto. intros v Hv.
    unfold assignment_complete in C. rewrite forallb_forall in C.
    apply (dict_mem_In var_eqb var_eqb_spec). auto.
  - apply assignment_incomplete in C as (v & Hv & Hm).
    destruct (select_unassigned_variable_spec d a v Hv Hm) as (var & s & E & H1 & H2 & _).
    eauto.
Qed.

Section Completeness.
Variable cw : Crossword.
Variable sol : assignment.
Variable d : domains.
Hypothesis Hwf : wf_crossword cw = true.
Hypothesis Hsol_wf : wf_assignment cw sol = true.
Hypothesis Hsol_all : forall v, In v (variables cw) -> exists w, In (v, w) sol.
Hypothesis Hsol_ok : consistent cw sol = Ret true.
Hypothesis Hgood : good cw sol d.

Lemma count_neighbors_ret a var word s :
  In var (variables cw) -> dict_get var_eqb d var = Some s -> In word s ->
  forall ns count, incl ns (neighbors cw var) ->
  exists k, count_neighbors cw d a var word ns count = Ret k.
Proof.
  intros Hv Gs Hw. destruct Hgood as (K & _ & NC & _).
  induction ns as [|n ns IH]; intros count Hns; simpl; eauto.
  assert (incl ns (neighbors cw var)) as Hns' by (intros u Hu; apply Hns; now right).
  destruct (dict_mem var_eqb a n); auto.
  destruct (wf_neighbor cw var n Hwf Hv) as (Hn & ix & iy & C); [apply Hns; now left|].
  destruct (wf_crossing cw var n ix iy Hwf Hv Hn C) as (_ & Lx & Ly & _).
  rewrite (proj1 (crossing_unpack cw var n (ix, iy)) C). simpl.
  destruct (good_get cw sol d n Hgood Hn) as (ns_words & Gn & _).
  unfold dict_lookup. rewrite Gn. simpl.
  destruct (count_ruled_out_ret word ix iy ns_words count) as (k & E).
  - apply string_get_lt. now rewrite (NC var s word Gs Hw).
  - intros nw Hnw. apply string_get_lt. now rewrite (NC n ns_words nw Gn Hnw).
  - rewrite E. simpl. auto.
Qed.

Lemma fill_ordered_values_ret a var s :
  In var (variables cw) -> dict_get var_eqb d var = Some s ->
  forall ws acc, incl ws s ->
  exists ov, fill_ordered_values cw d a var ws acc = Ret ov
    /\ forall w, In w (map fst ov) <-> In w (map fst acc) \/ In w ws.
Proof.
  intros Hv Gs. induction ws as [|w ws IH]; intros acc Hws; simpl.
  - exists acc. split; auto. intros w. tauto.
  - destruct (count_neighbors_ret a var w s Hv Gs (Hws w (or_introl eq_refl))
                (neighbors cw var) 0 (incl_refl _)) as (k & E).
    rewrite E. simpl.
    destruct (IH (dict_set String.eqb acc w k)) as (ov & E' & H).
    { intros u Hu. apply Hws. now right. }
    exists ov. split; auto. intros u. rewrite H.
    rewrite (dict_set_keys String.eqb String.eqb_spec). simpl. intuition.
Qed.

Lemma order_domain_values_ret a var :
  In var (variables cw) ->
  exists s values,
    dict_get var_eqb d var = Some s
    /\ order_domain_values cw d var a = Ret values
    /\ forall w, In w values <-> In w s.
Proof.
  intros Hv. destruct (good_get cw sol d var Hgood Hv) as (s & Gs & _).
  destruct (fill_ordered_values_ret a var s Hv Gs s [] (incl_refl _)) as (ov & E & H).
  exists s, (sorted String.leb (map fst ov)). split; auto. split.
  - unfold order_domain_values, dict_lookup. rewrite Gs. simpl. now rewrite E.
  - intros w. rewrite sorted_In, H. simpl. tauto.
Qed.

Lemma try_values_complete rec a var :
  over d a -> In var (map fst d) -> dict_mem var_eqb a var = false ->
  (forall value, complete_call sol rec (a ++ [(var, value)])) ->
  forall values calls, exists calls' r,
    try_values cw rec a var values calls = (calls', Ret r)
    /\ (incl a sol -> (exists w, In (var, w) sol /\ In w values) ->
        exists r', r = Some r').
Proof.
  intros Ha Hv Hm Hrec. destruct Hgood as (K & _).
  induction values as [|value values IH]; intros calls; simpl.
  - exists calls, None. split; auto. intros _ (w & _ & []).
  - destruct (over_extend d a var value Ha Hv Hm) as [-> Hov].
    pose proof (over_wf_assignment cw d _ K Hov) as WA.
    destruct (consistent_spec cw _ Hwf WA) as (b & E & _). rewrite E.
    destruct b.
    + destruct (Hrec value calls) as (c & r1 & R & Hr1). rewrite R.
      destruct r1 as [r'|].
      * exists c, (Some r'). split; eauto.
      * destruct (IH c) as (c' & r & T & Hr). exists c', r. split; auto.
        intros Hin (w & Hw & [<-|Hwv]); [|eauto].
        destruct Hr1 as (r' & Hr'); [|discriminate].
        apply incl_app; auto. intros e [<-|[]]. auto.
    + destruct (IH calls) as (c' & r & T & Hr). exists c', r. split; auto.
      intros Hin (w & Hw & [<-|Hwv]); [|eauto].
      assert (consistent cw (a ++ [(var, value)]) = Ret true) as E'.
      { apply (consistent_sub cw sol); auto.
        apply incl_app; auto. intros e [<-|[]]. auto. }
      congruence.
Qed.

Lemma backtrack_complete : forall fuel a,
  over d a -> List.length d < fuel + List.length a ->
  complete_call sol (backtrack cw d fuel) a.
Proof.
  induction fuel as [|fuel IH]; intros a Ha Hf calls.
  - apply over_length in Ha. simpl in Hf. lia.
  - simpl. destruct (Nat.eqb_spec (List.length a) (List.length d)) as [L|L].
    + eauto.
    + pose proof Hgood as (K & [ND _] & _ & Sup).
      destruct (select_unassigned_variable_total d a Ha ND L) as (var & E & Hv & Hm).
      rewrite E.
      assert (In var (variables cw)) as Hvar by now rewrite <- K.
      destruct (order_domain_values_ret a var Hvar) as (s & values & Gs & O & Hvals).
      rewrite O.
      destruct (try_values_complete (backtrack cw d fuel) a var Ha Hv Hm)
        with (values := values) (calls := S calls) as (c & r & T & Hr).
      { intros value. apply IH.
        - now apply over_extend.
        - rewrite length_app. simpl. lia. }
      exists c, r. split; auto. intros Hin. apply Hr; auto.
      destruct (Hsol_all var Hvar) as (w & Hw). exists w. split; auto.
      destruct (Sup var w Hw) as (s' & Gs' & Hs'). rewrite Gs in Gs'.
      injection Gs' as <-. now apply Hvals.
Qed.
End Completeness.

Lemma withinb_supports d a : withinb d a = true -> supports d a.
Proof.
  unfold withinb. rewrite forallb_forall. intros H v w Hvw.
  specialize (H (v, w) Hvw). simpl in H.
  destruct (dict_get var_eqb d v) as [s|]; [|discriminate].
  exists s. split; auto. apply existsb_exists in H as (w' & Hw' & E).
  apply String.eqb_eq in E. now subst.
Qed.

(** C2: for a well-formed puzzle and store, if some assignment binds every
    slot to a word of its original domain and [consistent] accepts it,
    then [solve] returns an assignment (not [None], no exception, and the
    loops of the model do not run out of fuel), one that binds every slot
    and that [consistent] accepts; it need not be the given one. *)
Theorem solve_complete (cw : Crossword) (d : domains) (sol : assignment) :
  wf_crossword cw = true -> wf_domains cw d = true ->
  wf_assignment cw sol = true -> assignment_complete d sol = true ->
  withinb d sol = true -> consistent cw sol = Ret true ->
  exists r,
    result (solve cw d) = Ret (Some r)
    /\ assignment_complete d r = true
    /\ consistent cw r = Ret true.
Proof.
  intros W WD WS CS IS KS.
  pose proof (wf_domains_keys cw d WD) as K.
  pose proof (wf_domains_store_ok cw d WD) as [ND HS].
  assert (forall v, In v (variables cw) -> exists w, In (v, w) sol) as Hall.
  { intros v Hv. unfold assignment_complete in CS. rewrite forallb_forall in CS.
    rewrite <- K in Hv. specialize (CS v Hv). unfold dict_mem in CS.
    destruct (dict_get var_eqb sol v) as [w|] eqn:G; [|discriminate].
    exists w. eapply dict_get_In; eauto using var_eqb_spec. }
  assert (good cw sol (map node_filter d)) as G1.
  { split; [now rewrite node_filter_keys|]. split; [split|split].
    - now rewrite node_filter_keys.
    - apply Forall_forall. intros e He. apply in_map_iff in He as (e0 & <- & He0).
      simpl. apply NoDup_filter. rewrite Forall_forall in HS. auto.
    - apply node_filter_consistent.
    - intros v w Hvw. destruct (withinb_supports d sol IS v w Hvw) as (s & Gs & Hs).
      rewrite node_filter_get, Gs. simpl. eexists. split; eauto.
      apply filter_In. split; auto.
      destruct (sol_props cw sol W WS KS) as (_ & L & _).
      unfold length_ok. apply Nat.eqb_eq. now apply L. }
  destruct (ac3_spec cw sol W WS Hall KS _ G1) as (d2 & b & A & G2).
  destruct (backtrack_complete cw sol d2 W WS Hall KS G2 (S (List.length d2)) [])
    with (calls := 0) as (c & r & B & Hr).
  { apply over_empty. }
  { simpl. lia. }
  destruct Hr as (r' & ->); [intros e []|].
  assert (result (solve cw d) = Ret (Some r')) as R.
  { unfold solve. rewrite (enforce_node_consistency_spec d (conj ND HS)), A, B.
    reflexivity. }
  exists r'. split; auto.
  destruct (solve_result cw d r' R) as [(_ & Hc & Hk) Kf].
  rewrite (assignment_complete_keys _ d r' Kf) in Hc. auto.
Qed.

(** * Further properties of the code *)

(** ** The passes only remove words *)

Lemma shrinks_refl d : shrinks d d.
Proof. split; auto. intros v s H. exists s. split; auto using incl_refl. Qed.

Lemma shrinks_trans d1 d2 d3 : shrinks d1 d2 -> shrinks d2 d3 -> shrinks d1 d3.
Proof.
  intros [K1 H1] [K2 H2]. split; [congruence|].
  intros v s3 G3. destruct (H2 v s3 G3) as (s2 & G2 & I2).
  destruct (H1 v s2 G2) as (s1 & G1 & I1). exists s1. split; auto.
  eapply incl_tran; eauto.
Qed.

Lemma domains_remove_shrinks d var word :
  shrinks d (fst (domains_remove d var word)).
Proof.
  destruct (domains_remove_cases d var word) as [->|(s & G & Hw & ->)]; simpl.
  - apply shrinks_refl.
  - split.
    + apply (dict_set_keys_mem var_eqb var_eqb_spec).
      eapply dict_get_key; eauto using var_eqb_spec.
    + intros v s' G'. destruct (var_eqb_spec v var) as [->|N].
      * rewrite (dict_get_set_same var_eqb var_eqb_spec) in G'. injection G' as <-.
        exists s. split; auto. intros w Hin. now apply in_remove in Hin.
      * rewrite (dict_get_set_other var_eqb var_eqb_spec) in G' by auto.
        exists s'. split; auto using incl_refl.
Qed.

Lemma enforce_words_shrinks var : forall ws d,
  shrinks d (fst (enforce_words var ws d)).
Proof.
  induction ws as [|w ws IH]; intros d; simpl; [apply shrinks_refl|].
  destruct (negb (String.length w =? var_length var)); auto.
  pose proof (domains_remove_shrinks d var w) as F.
  destruct (domains_remove d var w) as [d' [[]| |]]; simpl in *; auto.
  eapply shrinks_trans; eauto.
Qed.

Lemma enforce_vars_shrinks domain : forall vars d,
  shrinks d (fst (enforce_vars domain vars d)).
Proof.
  induction vars as [|v vars IH]; intros d; simpl; [apply shrinks_refl|].
  destruct (dict_get var_eqb domain v) as [ws|]; simpl; [|apply shrinks_refl].
  pose proof (enforce_words_shrinks v ws d) as F.
  destruct (enforce_words v ws d) as [d' [[]| |]]; simpl in *; auto.
  eapply shrinks_trans; eauto.
Qed.

Lemma revise_words_shrinks domain x y xo yo : forall xs d revised,
  shrinks d (fst (revise_words domain x y xo yo xs d revised)).
Proof.
  induction xs as [|w xs IH]; intros d revised; simpl; [apply shrinks_refl|].
  destruct (dict_get var_eqb domain y) as [ys|]; simpl; [|apply shrinks_refl].
  destruct (has_match w xo yo ys) as [[|]| |]; simpl; auto using shrinks_refl.
  pose proof (domains_remove_shrinks d x w) as F.
  destruct (domains_remove d x w) as [d' [[]| |]]; simpl in *; auto.
  eapply shrinks_trans; eauto.
Qed.

Lemma revise_shrinks cw d x y : shrinks d (fst (revise cw d x y)).
Proof.
  unfold revise.
  destruct (unpack_overlap cw x y) as [[xo yo]| |]; simpl; auto using shrinks_refl.
  destruct xo; simpl; auto using shrinks_refl.
  destruct (dict_get var_eqb d x); simpl; auto using shrinks_refl.
  apply revise_words_shrinks.
Qed.

Lemma ac3_loop_shrinks cw : forall fuel d queue,
  shrinks d (fst (ac3_loop cw fuel d queue)).
Proof.
  induction fuel as [|fuel IH]; intros d queue; simpl;
    destruct (list_pop queue) as [[queue' [x y]]|]; simpl; auto using shrinks_refl.
  pose proof (revise_shrinks cw d x y) as F.
  destruct (revise cw d x y) as [d' [[|]| |]]; simpl in *; auto.
  - destruct (dict_get var_eqb d' x) as [s|]; simpl; auto.
    destruct (List.length s =? 0); simpl; auto. eapply shrinks_trans; eauto.
  - eapply shrinks_trans; eauto.
Qed.

Lemma ac3_shrinks cw d arcs : shrinks d (fst (ac3 cw d arcs)).
Proof.
  unfold ac3. destruct arcs; simpl; [apply shrinks_refl|].
  destruct (initial_arcs cw (map fst d) []); simpl; auto using shrinks_refl.
  apply ac3_loop_shrinks.
Qed.

(** X5: [ac3], however it ends, leaves a store with the same slots in which no
    domain has a word it did not have. *)
Theorem ac3_only_removes_words (cw : Crossword) (d : domains)
    (arcs : option (list arc)) :
  map fst (fst (ac3 cw d arcs)) = map fst d
  /\ forall v s', dict_get var_eqb (fst (ac3 cw d arcs)) v = Some s' ->
       exists s, dict_get var_eqb d v = Some s /\ incl s' s.
Proof. exact (ac3_shrinks cw d arcs). Qed.

Lemma solve_shrinks cw d : shrinks d (final_domains (solve cw d)).
Proof.
  unfold solve.
  pose proof (enforce_vars_shrinks d (map fst d) d) as F1.
  fold (enforce_node_consistency d) in F1.
  destruct (enforce_node_consistency d) as [d1 [[]| |]]; cbn [fst] in F1;
    try (cbn; exact F1).
  pose proof (ac3_shrinks cw d1 None) as F2.
  destruct (ac3 cw d1 None) as [d2 [b| |]]; cbn [fst] in F2;
    try (cbn; eapply shrinks_trans; eauto; fail).
  destruct (backtrack cw d2 (S (List.length d2)) [] 0) as [calls r].
  cbn. eapply shrinks_trans; eauto.
Qed.

(** X18: [solve], however it ends, leaves a store with the slots it started
    from in which no domain has a word it did not have: the passes remove
    words and the search leaves the store alone. *)
Theorem solve_only_removes_words (cw : Crossword) (d : domains) :
  map fst (final_domains (solve cw d)) = map fst d
  /\ forall v s', dict_get var_eqb (final_domains (solve cw d)) v = Some s' ->
       exists s, dict_get var_eqb d v = Some s /\ incl s' s.
Proof. exact (solve_shrinks cw d). Qed.

(** ** The flag of [revise] *)

Lemma revise_words_flag domain x y xo yo : forall xs d revised d' b,
  revise_words domain x y xo yo xs d revised = (d', Ret b) ->
  (b = revised /\ d' = d)
  \/ (b = true /\ exists s s',
        dict_get var_eqb d x = Some s /\ dict_get var_eqb d' x = Some s'
        /\ incl s' s /\ List.length s' < List.length s).
Proof.
  induction xs as [|w xs IH]; intros d revised d' b; simpl.
  - intros E. injection E as <- <-. auto.
  - destruct (dict_get var_eqb domain y) as [ys|]; [|discriminate].
    destruct (has_match w xo yo ys) as [[|]| |]; try discriminate.
    + apply IH.
    + destruct (domains_remove_cases d x w) as [->|(s & G & Hw & ->)]; simpl;
        [discriminate|].
      intros E. right. apply IH in E.
      assert (dict_get var_eqb (dict_set var_eqb d x (remove string_dec w s)) x
              = Some (remove string_dec w s)) as G1
        by apply (dict_get_set_same var_eqb var_eqb_spec).
      assert (incl (remove string_dec w s) s) as I1
        by (intros u Hu; now apply in_remove in Hu).
      pose proof (remove_length_lt string_dec s w Hw) as L1.
      destruct E as [[-> ->]|(-> & s1 & s' & G1' & G' & I & L)].
      * split; auto. exists s, (remove string_dec w s). auto.
      * rewrite G1 in G1'. injection G1' as <-. split; auto.
        exists s, s'. repeat split; auto; [eapply incl_tran; eauto|lia].
Qed.

Lemma revise_flag cw d x y d' b :
  revise cw d x y = (d', Ret b) ->
  if b then exists s s',
         dict_get var_eqb d x = Some s /\ dict_get var_eqb d' x = Some s'
         /\ incl s' s /\ List.length s' < List.length s
  else d' = d.
Proof.
  unfold revise.
  destruct (unpack_overlap cw x y) as [[xo yo]| |]; try discriminate.
  destruct xo.
  - intros E. injection E as <- <-. reflexivity.
  - destruct (dict_get var_eqb d x) as [xs|] eqn:G; [|discriminate].
    intros E. apply revise_words_flag in E as [[-> ->]|(-> & H)]; simpl; auto.
    now rewrite <- G.
Qed.

(** X3: [revise] returns [True] exactly when it has made the domain of [x]
    smaller: after [False] the store is the one before the call, after
    [True] the domain of [x] is a part of what it was, with fewer words. *)
Theorem revise_reports_revision (cw : Crossword) (d d' : domains) (x y : Var)
    (b : bool) :
  revise cw d x y = (d', Ret b) ->
  (b = false -> d' = d)
  /\ (b = true -> exists s s',
        dict_get var_eqb d x = Some s /\ dict_get var_eqb d' x = Some s'
        /\ incl s' s /\ List.length s' < List.length s).
Proof.
  intros E. apply revise_flag in E. destruct b; split; intros H; auto; discriminate.
Qed.

(** ** [ac3] returning [True] has emptied no domain *)

Lemma ac3_loop_true_nonempty cw : forall fuel d queue d',
  ac3_loop cw fuel d queue = (d', Ret true) ->
  forall v s, dict_get var_eqb d v = Some s -> s <> [] ->
  exists s', dict_get var_eqb d' v = Some s' /\ s' <> [].
Proof.
  induction fuel as [|fuel IH]; intros d queue d'; simpl;
    destruct (list_pop queue) as [[queue' [x y]]|]; simpl; try discriminate;
    try (intros E; injection E as <-; eauto; fail).
  pose proof (revise_frame cw d x y) as F.
  destruct (revise cw d x y) as [d1 [[|]| |]] eqn:R; simpl in *; try discriminate.
  - destruct (dict_get var_eqb d1 x) as [sx|] eqn:Gx; simpl; [|discriminate].
    destruct sx as [|w sx]; simpl; [discriminate|].
    intros E v s G N. destruct (var_eqb_spec v x) as [->|Nx].
    + apply (IH _ _ _ E x (w :: sx)); auto. discriminate.
    + apply (IH _ _ _ E v s); auto. now rewrite F.
  - apply revise_flag in R. subst d1. apply IH.
Qed.

(** X8: when [ac3] returns [True], every domain that held a word before the
    call still holds one. *)
Theorem ac3_true_keeps_domains_nonempty (cw : Crossword) (d d' : domains) :
  ac3 cw d None = (d', Ret true) ->
  forall v s, dict_get var_eqb d v = Some s -> s <> [] ->
  exists s', dict_get var_eqb d' v = Some s' /\ s' <> [].
Proof.
  unfold ac3. destruct (initial_arcs cw (map fst d) []); try discriminate.
  apply ac3_loop_true_nonempty.
Qed.

(** X9: when [ac3] returns [False], some slot of the store it leaves has an
    empty domain. *)
Theorem ac3_false_leaves_empty_domain (cw : Crossword) (d d' : domains) :
  ac3 cw d None = (d', Ret false) ->
  exists x, In x (map fst d) /\ dict_get var_eqb d' x = Some [].
Proof.
  intros E. destruct (ac3_false cw d d' E) as (x & G). exists x. split; auto.
  pose proof (ac3_keys cw d None) as K. rewrite E in K. simpl in K. rewrite <- K.
  eapply dict_get_key; eauto using var_eqb_spec.
Qed.

(** ** [select_unassigned_variable] with nothing left to select *)

Lemma fill_unassigned_none d a : forall vars acc,
  forallb (fun var => dict_mem var_eqb a var) vars = true ->
  fill_unassigned d a vars acc = Ret acc.
Proof.
  induction vars as [|v vars IH]; intros acc; simpl; auto.
  destruct (dict_mem var_eqb a v); simpl; [|discriminate]. apply IH.
Qed.

(** X10: when the assignment covers every slot of the store,
    [select_unassigned_variable] raises [IndexError]: the list it takes
    the first element of is empty. *)
Theorem select_unassigned_variable_none_left (d : domains) (a : assignment) :
  assignment_complete d a = true ->
  select_unassigned_variable d a = Raise IndexError.
Proof.
  intros H. unfold select_unassigned_variable.
  now rewrite (fill_unassigned_none d a (map fst d) [] H).
Qed.

(** ** [assignment_complete] and the test of [backtrack] *)

Lemma overb_over d a : overb d a = true -> over d a.
Proof.
  unfold overb. rewrite andb_true_iff, forallb_forall. intros [H1 H2]. split.
  - now apply (nodupb_NoDup var_eqb var_eqb_spec).
  - intros v Hv. apply var_mem_In. auto.
Qed.

(** X11: on an assignment whose keys are slots of the store, the test
    [len(assignment) == len(self.domains)] with which [backtrack] stops
    decides what [assignment_complete] decides. *)
Theorem assignment_complete_is_length_test (d : domains) (a : assignment) :
  store_okb d = true -> overb d a = true ->
  assignment_complete d a = (List.length a =? List.length d).
Proof.
  intros Hd Ha. apply store_okb_ok in Hd as [ND _]. apply overb_over in Ha.
  destruct (Nat.eqb_spec (List.length a) (List.length d)) as [L|L].
  - now apply over_complete.
  - destruct (assignment_complete d a) eqn:C; auto.
    exfalso. apply L. apply Nat.le_antisymm.
    + destruct Ha as [NDa Hin]. rewrite <- (length_map fst a), <- (length_map fst d).
      now apply NoDup_incl_length.
    + rewrite <- (length_map fst a), <- (length_map fst d).
      apply NoDup_incl_length; auto. intros v Hv.
      unfold assignment_complete in C. rewrite forallb_forall in C.
      apply (dict_mem_In var_eqb var_eqb_spec). auto.
Qed.

(** ** The store of [__init__] *)

Lemma init_domains_get cw var :
  dict_get var_eqb (init_domains cw) var
  = if var_mem var (variables cw) then Some (words cw) else None.
Proof.
  unfold init_domains, var_mem. induction (variables cw) as [|v vs IH]; simpl; auto.
  destruct (var_eqb var v); simpl; auto.
Qed.

(** X1: the store [__init__] builds has the slots of the puzzle as its keys and
    the whole word list as the domain of each; when the slots and the
    words are duplicate-free it is a well-formed store of the puzzle. *)
Theorem init_domains_well_formed (cw : Crossword) :
  nodupb var_eqb (variables cw) = true ->
  nodupb String.eqb (words cw) = true ->
  wf_domains cw (init_domains cw) = true
  /\ map fst (init_domains cw) = variables cw
  /\ forall var, In var (variables cw) ->
       dict_get var_eqb (init_domains cw) var = Some (words cw).
Proof.
  intros Hv Hw.
  assert (map fst (init_domains cw) = variables cw) as K.
  { unfold init_domains. rewrite map_map. simpl. apply map_id. }
  split; [|split; auto].
  - unfold wf_domains, store_okb. rewrite K, Hv.
    rewrite (proj2 (list_eqb_eq var_eqb var_eqb_spec _ _) eq_refl). simpl.
    apply forallb_forall. intros e He. unfold init_domains in He.
    apply in_map_iff in He as (v & <- & _). exact Hw.
  - intros var Hvar. rewrite init_domains_get.
    now rewrite (proj2 (var_mem_In var (variables cw)) Hvar).
Qed.

(** ** Node consistency, twice *)

Lemma filter_filter {A : Type} (f : A -> bool) (l : list A) :
  filter f (filter f l) = filter f l.
Proof.
  induction l as [|a l IH]; simpl; auto.
  destruct (f a) eqn:E; simpl; [rewrite E|]; now rewrite ?IH.
Qed.

Lemma node_filter_store_ok d : store_ok d -> store_ok (map node_filter d).
Proof.
  intros [ND HS]. split.
  - now rewrite node_filter_keys.
  - apply Forall_forall. intros e He. apply in_map_iff in He as (e0 & <- & He0).
    simpl. apply NoDup_filter. rewrite Forall_forall in HS. auto.
Qed.

(** X2: a second run of [enforce_node_consistency] changes nothing. *)
Theorem enforce_node_consistency_idempotent (d : domains) :
  store_okb d = true ->
  exists d1,
    enforce_node_consistency d = (d1, Ret tt)
    /\ enforce_node_consistency d1 = (d1, Ret tt).
Proof.
  intros H. apply store_okb_ok in H. exists (map node_filter d). split.
  - now apply enforce_node_consistency_spec.
  - rewrite enforce_node_consistency_spec by now apply node_filter_store_ok.
    assert (map node_filter (map node_filter d) = map node_filter d) as E;
      [|now rewrite E].
    rewrite map_map. apply map_ext. intros [v s]. unfold node_filter. simpl.
    now rewrite filter_filter.
Qed.

(** ** [consistent] on a part of an assignment *)

(** X12: on a well-formed puzzle, an assignment made of bindings of an
    assignment that [consistent] accepts is accepted as well. *)
Theorem consistent_on_part (cw : Crossword) (a part : assignment) :
  wf_crossword cw = true ->
  wf_assignment cw a = true -> consistent cw a = Ret true ->
  wf_assignment cw part = true -> incl part a ->
  consistent cw part = Ret true.
Proof. intros W WA CA WP Hin. exact (consistent_sub cw a part W WA CA WP Hin). Qed.

(** ** Stores after node consistency *)

Lemma node_consistentb_ok d : node_consistentb d = true -> node_consistent d.
Proof.
  unfold node_consistentb. rewrite forallb_forall. intros H var s w G Hw.
  apply (dict_get_In var_eqb var_eqb_spec) in G. specialize (H _ G). simpl in H.
  rewrite forallb_forall in H. specialize (H w Hw). now apply Nat.eqb_eq in H.
Qed.

Lemma node_consistent_b d :
  NoDup (map fst d) -> node_consistent d -> node_consistentb d = true.
Proof.
  intros ND H. apply forallb_forall. intros [v s] He. simpl.
  apply forallb_forall. intros w Hw. apply Nat.eqb_eq.
  apply (H v s w); auto. now apply (In_dict_get var_eqb var_eqb_spec).
Qed.

Lemma store_ok_b d : store_ok d -> store_okb d = true.
Proof.
  intros [ND HS]. unfold store_okb. apply andb_true_iff. split.
  - now apply (nodupb_NoDup var_eqb var_eqb_spec).
  - apply forallb_forall. intros e He. rewrite Forall_forall in HS.
    apply (nodupb_NoDup String.eqb String.eqb_spec). auto.
Qed.

Lemma good_nil cw d :
  wf_domains cw d = true -> node_consistentb d = true -> good cw [] d.
Proof.
  intros WD NC. split; [now apply wf_domains_keys|]. split; [|split].
  - eapply wf_domains_store_ok; eauto.
  - now apply node_consistentb_ok.
  - intros v w [].
Qed.

Lemma good_nil_back cw d :
  good cw [] d -> wf_domains cw d = true /\ node_consistentb d = true.
Proof.
  intros (K & SO & NC & _). split.
  - unfold wf_domains. apply andb_true_iff. split.
    + now apply (list_eqb_eq var_eqb var_eqb_spec).
    + now apply store_ok_b.
  - apply node_consistent_b; auto. apply SO.
Qed.

(** ** What [revise] leaves in the domain of [x] *)

Lemma agreeb_agree wx wy ix iy : agreeb wx wy ix iy = true <-> agree wx wy ix iy.
Proof.
  unfold agreeb, agree. destruct (String.get ix wx) as [a|], (String.get iy wy) as [b|];
    split; try discriminate; try (intros (c & H1 & H2); discriminate).
  - intros H. apply Ascii.eqb_eq in H. subst. eauto.
  - intros (c & H1 & H2). injection H1 as ->. injection H2 as ->. apply Ascii.eqb_refl.
Qed.

Lemma agreeb_sym wx wy ix iy : agreeb wx wy ix iy = agreeb wy wx iy ix.
Proof.
  unfold agreeb. destruct (String.get ix wx), (String.get iy wy); auto.
  apply Ascii.eqb_sym.
Qed.

Lemma supported_agree ys ix iy w :
  supported ys ix iy w = true <-> exists yw, In yw ys /\ agree w yw ix iy.
Proof.
  unfold supported. rewrite existsb_exists. split; intros (yw & H1 & H2); exists yw;
    split; auto; now apply agreeb_agree.
Qed.

(** X4: on a well-formed puzzle and a node-consistent store, [revise(x, y)] on
    two slots that cross at an offset of [x] other than 0 returns; it
    leaves in the domain of [x] exactly the words that agree with some
    word of the domain of [y] at the crossing, and it returns [False]
    exactly when that is the whole domain. *)
Theorem revise_keeps_supported_words (cw : Crossword) (d : domains)
    (x y : Var) (ix iy : nat) :
  wf_crossword cw = true -> wf_domains cw d = true ->
  node_consistentb d = true ->
  In x (variables cw) -> In y (variables cw) ->
  crossing cw x y = Some (S ix, iy) ->
  exists xs ys xs' b,
    dict_get var_eqb d x = Some xs /\ dict_get var_eqb d y = Some ys
    /\ revise cw d x y = (dict_set var_eqb d x xs', Ret b)
    /\ (forall w, In w xs' <->
                  In w xs /\ exists yw, In yw ys /\ agree w yw (S ix) iy)
    /\ (b = false <-> xs' = xs).
Proof.
  intros W WD NC Hx Hy C. pose proof (good_nil cw d WD NC) as G.
  destruct (revise_spec cw [] W d x y (S ix) iy G Hx Hy C) as (xs & ys & Gx & Gy & R).
  exists xs, ys, (filter (supported ys (S ix) iy) xs),
         (negb (forallb (supported ys (S ix) iy) xs)).
  split; auto. split; auto. split; auto. split.
  - intros w. rewrite filter_In, supported_agree. tauto.
  - destruct (forallb (supported ys (S ix) iy) xs) eqn:F; simpl.
    + split; auto. intros _. now apply forallb_filter_id.
    + split; [discriminate|]. intros E.
      pose proof (filter_length_lt (supported ys (S ix) iy) xs F) as L.
      rewrite E in L. lia.
Qed.

(** ** [ac3] returns *)

Lemma revise_step_nil cw d x y :
  wf_crossword cw = true -> good cw [] d ->
  In x (variables cw) -> In y (variables cw) -> crossing cw x y <> None ->
  exists d' b,
    revise cw d x y = (d', Ret b) /\ good cw [] d'
    /\ (if b then total_size d' < total_size d else d' = d).
Proof.
  intros W Hg Hx Hy C.
  destruct (crossing cw x y) as [[xo yo]|] eqn:E; [clear C|congruence].
  destruct (revise_spec cw [] W d x y xo yo Hg Hx Hy E) as (xs & ys & Gx & Gy & R).
  destruct xo as [|xo'].
  - exists d, false. auto.
  - exists (dict_set var_eqb d x (filter (supported ys (S xo') yo) xs)),
           (negb (forallb (supported ys (S xo') yo) xs)).
    split; [exact R|]. split.
    + apply good_shrink; auto; intros w [].
    + destruct (forallb (supported ys (S xo') yo) xs) eqn:F; simpl.
      * rewrite forallb_filter_id by auto.
        now apply (dict_set_same_value var_eqb var_eqb_spec).
      * pose proof (total_size_set d x xs (filter (supported ys (S xo') yo) xs) Gx).
        pose proof (filter_length_lt (supported ys (S xo') yo) xs F). lia.
Qed.

Lemma ac3_loop_returns cw :
  wf_crossword cw = true ->
  forall fuel d queue,
    good cw [] d -> Forall (arc_ok cw) queue ->
    List.length queue + S (max_degree cw d) * total_size d <= fuel ->
    exists d' b, ac3_loop cw fuel d queue = (d', Ret b) /\ good cw [] d'.
Proof.
  intros W. induction fuel as [|fuel IH]; intros d queue Hg Hq Hf.
  - destruct queue; [|simpl in Hf; lia]. simpl. eauto.
  - simpl. destruct (list_pop queue) as [[queue' [x y]]|] eqn:P; [|eauto].
    apply list_pop_spec in P. subst queue.
    apply Forall_app in Hq as [Hq' Ha]. inv Ha. destruct H1 as (Hx & Hy & C).
    simpl in Hx, Hy, C. rewrite length_app in Hf. simpl in Hf.
    destruct (revise_step_nil cw d x y W Hg Hx Hy C) as (d' & b & R & Hg' & Hb).
    rewrite R. simpl. destruct b.
    + destruct (good_get cw [] d' x Hg' Hx) as (s & Gs & _). rewrite Gs.
      destruct (List.length s =? 0); [eauto|].
      apply IH; auto.
      * apply Forall_app. split; auto. now apply requeue_ok.
      * assert (map fst d = map fst d') as K.
        { destruct Hg as (K1 & _), Hg' as (K2 & _). congruence. }
        rewrite <- (max_degree_keys cw d d' K).
        pose proof (requeue_length cw x y).
        assert (List.length (neighbors cw x) <= max_degree cw d).
        { apply degree_le. destruct Hg as (K1 & _). now rewrite K1. }
        rewrite length_app. nia.
    + subst d'. apply IH; auto. lia.
Qed.

Lemma ac3_returns_nil cw d :
  wf_crossword cw = true -> good cw [] d ->
  exists d' b, ac3 cw d None = (d', Ret b) /\ good cw [] d'.
Proof.
  intros W Hg. unfold ac3.
  destruct (initial_arcs_spec cw W (map fst d) []) as (q & E & Hq); auto.
  { destruct Hg as (K & _). rewrite K. apply incl_refl. }
  rewrite E. apply ac3_loop_returns; auto.
Qed.

(** X6: on a well-formed puzzle and a node-consistent store of it, [ac3]
    returns [True] or [False]: it raises nothing, its loop ends within the
    bound on its iterations, and the store it leaves is again a
    node-consistent store of the puzzle. *)
Theorem ac3_returns (cw : Crossword) (d : domains) :
  wf_crossword cw = true -> wf_domains cw d = true ->
  node_consistentb d = true ->
  exists d' b,
    ac3 cw d None = (d', Ret b)
    /\ wf_domains cw d' = true /\ node_consistentb d' = true.
Proof.
  intros W WD NC.
  destruct (ac3_returns_nil cw d W (good_nil cw d WD NC)) as (d' & b & E & G).
  exists d', b. split; auto. now apply good_nil_back.
Qed.

(** ** Arc consistency after [ac3], offset 0 apart *)

Lemma initial_arcs_of_contains cw var_1 : forall ns queue queue',
  initial_arcs_of cw var_1 ns queue = Ret queue' ->
  forall a, In a queue
            \/ (fst a = var_1 /\ In (snd a) ns /\ crossing cw var_1 (snd a) <> None) ->
            In a queue'.
Proof.
  induction ns as [|n ns IH]; intros queue queue'; simpl.
  - intros E. injection E as <-. intros a [H|(_ & [] & _)]. auto.
  - unfold crossing in *.
    destruct (dict_get arc_eqb (overlaps cw) (var_1, n)) as [[p|]|] eqn:G;
      try discriminate; intros E a H; apply (IH _ _ E).
    + destruct H as [H|(H1 & [H2|H2] & H3)]; auto.
      * left. apply in_or_app. auto.
      * left. apply in_or_app. right. left. destruct a; simpl in *. congruence.
    + destruct H as [H|(H1 & [H2|H2] & H3)]; auto.
      exfalso. apply H3. rewrite <- H2, G. reflexivity.
Qed.

Lemma initial_arcs_contains cw : forall vars queue queue',
  initial_arcs cw vars queue = Ret queue' ->
  forall x y, In x vars -> In y (neighbors cw x) -> crossing cw x y <> None ->
              In (x, y) queue'.
Proof.
  assert (forall vars queue queue', initial_arcs cw vars queue = Ret queue' ->
            forall a, In a queue -> In a queue') as Keep.
  { induction vars as [|v vars IH]; intros queue queue'; simpl.
    - intros E. injection E as <-. auto.
    - destruct (initial_arcs_of cw v (neighbors cw v) queue) as [q1| |] eqn:E1;
        simpl; try discriminate.
      intros E a H. apply (IH _ _ E). apply (initial_arcs_of_contains _ _ _ _ _ E1). auto. }
  induction vars as [|v vars IH]; intros queue queue'; simpl.
  - intros _ x y [].
  - destruct (initial_arcs_of cw v (neighbors cw v) queue) as [q1| |] eqn:E1;
      simpl; try discriminate.
    intros E x y [<-|Hx] Hy C.
    + apply (Keep _ _ _ E). apply (initial_arcs_of_contains _ _ _ _ _ E1). right. auto.
    + apply (IH _ _ E); auto.
Qed.

Lemma no_self_crossing_neq cw x y p :
  no_self_crossing cw = true -> In x (variables cw) ->
  crossing cw x y = Some p -> x <> y.
Proof.
  unfold no_self_crossing. rewrite forallb_forall. intros H Hx C <-.
  specialize (H x Hx). rewrite C in H. discriminate.
Qed.

Section Ac3Fixpoint.
Variable cw : Crossword.
Hypothesis Hwf : wf_crossword cw = true.
Hypothesis Hself : no_self_crossing cw = true.

(** Revising [(x, y)] on a store where the other arcs are pending or
    supported leaves them so, once the arcs into [x] are back on the
    worklist. *)
Lemma pending_after_revision d queue x y xo yo xs ys :
  good cw [] d ->
  In x (variables cw) -> In y (variables cw) ->
  crossing cw x y = Some (S xo, yo) ->
  dict_get var_eqb d x = Some xs -> dict_get var_eqb d y = Some ys ->
  pending cw d (queue ++ [(x, y)]) ->
  pending cw (dict_set var_eqb d x (filter (supported ys (S xo) yo) xs))
             (queue ++ requeue cw x y).
Proof.
  intros Hg Hx Hy C Gx Gy P u v ix iy us vs w Hu Hv Cuv Nin Gu Gv Hw.
  assert (x <> y) as Nxy by (eapply no_self_crossing_neq; eauto).
  assert (u <> v) as Nuv by (eapply no_self_crossing_neq; eauto).
  assert (~ In (u, v) queue) as Nq by (intros H; apply Nin, in_or_app; auto).
  destruct (var_eqb_spec u x) as [->|Nux].
  - rewrite (dict_get_set_same var_eqb var_eqb_spec) in Gu. injection Gu as <-.
    apply filter_In in Hw as [Hw Sw].
    rewrite (dict_get_set_other var_eqb var_eqb_spec) in Gv by auto.
    destruct (var_eqb_spec v y) as [->|Nvy].
    + rewrite Gy in Gv. injection Gv as <-.
      rewrite C in Cuv. injection Cuv as <- <-. exact Sw.
    + apply (P x v ix iy xs vs w); auto.
      intros H. apply in_app_or in H as [H|[H|[]]]; [tauto|congruence].
  - rewrite (dict_get_set_other var_eqb var_eqb_spec) in Gu by auto.
    destruct (var_eqb_spec v x) as [->|Nvx].
    + rewrite (dict_get_set_same var_eqb var_eqb_spec) in Gv. injection Gv as <-.
      destruct (wf_crossing cw u x (S ix) iy Hwf Hu Hx Cuv) as (_ & _ & _ & Cxu).
      destruct (wf_crossing cw x u iy (S ix) Hwf Hx Hu Cxu) as (Hn & _).
      destruct (var_eqb_spec u y) as [->|Nuy].
      * rewrite Gy in Gu. injection Gu as <-.
        rewrite C in Cxu. injection Cxu as E1 E2. subst iy yo.
        assert (supported xs (S ix) (S xo) w = true) as Sup.
        { apply (P y x ix (S xo) ys xs w); auto.
          intros H. apply in_app_or in H as [H|[H|[]]]; [tauto|congruence]. }
        unfold supported in *. apply existsb_exists in Sup as (a & Ha & Ag).
        apply existsb_exists. exists a. split; auto.
        apply filter_In. split; auto. apply existsb_exists. exists w. split; auto.
        now rewrite agreeb_sym.
      * exfalso. apply Nin, in_or_app. right. unfold requeue.
        apply in_map_iff. exists u. split; auto. apply filter_In. split; auto.
        now rewrite var_eqb_neq.
    + rewrite (dict_get_set_other var_eqb var_eqb_spec) in Gv by auto.
      apply (P u v ix iy us vs w); auto.
      intros H. apply in_app_or in H as [H|[H|[]]]; [tauto|congruence].
Qed.

Lemma ac3_loop_fixpoint : forall fuel d queue d',
  good cw [] d -> Forall (arc_ok cw) queue -> pending cw d queue ->
  ac3_loop cw fuel d queue = (d', Ret true) ->
  pending cw d' [].
Proof.
  induction fuel as [|fuel IH]; intros d queue d' Hg Hq P; simpl;
    destruct (list_pop queue) as [[queue' [x y]]|] eqn:Pop; try discriminate;
    try (apply list_pop_None in Pop; subst queue; intros E; injection E as <-; exact P).
  apply list_pop_spec in Pop. subst queue.
  apply Forall_app in Hq as [Hq' Ha]. inv Ha. destruct H1 as (Hx & Hy & C).
  simpl in Hx, Hy, C.
  destruct (crossing cw x y) as [[xo yo]|] eqn:E; [clear C|congruence].
  destruct (revise_spec cw [] Hwf d x y xo yo Hg Hx Hy E) as (xs & ys & Gx & Gy & R).
  rewrite R. destruct xo as [|xo]; simpl.
  - apply IH; auto. intros u v ix iy us vs w Hu Hv Cuv Nin.
    apply (P u v ix iy us vs w); auto.
    intros H. apply in_app_or in H as [H|[H|[]]]; [tauto|].
    injection H as <- <-. congruence.
  - destruct (forallb (supported ys (S xo) yo) xs) eqn:F; simpl.
    + rewrite forallb_filter_id by auto.
      rewrite (dict_set_same_value var_eqb var_eqb_spec) by auto.
      apply IH; auto. intros u v ix iy us vs w Hu Hv Cuv Nin Gu Gv Hw.
      destruct (in_dec (fun a b => reflect_dec _ _ (arc_eqb_spec a b))
                       (u, v) (queue' ++ [(x, y)])) as [H|H].
      * apply in_app_or in H as [H|[H|[]]]; [tauto|]. injection H as <- <-.
        rewrite Gx in Gu. rewrite Gy in Gv. injection Gu as <-. injection Gv as <-.
        rewrite E in Cuv. injection Cuv as <- <-.
        rewrite forallb_forall in F. auto.
      * apply (P u v ix iy us vs w); auto.
    + assert (good cw [] (dict_set var_eqb d x (filter (supported ys (S xo) yo) xs)))
        as Hg' by (apply good_shrink; auto; intros w []).
      destruct (good_get cw [] _ x Hg' Hx) as (s & Gs & _). rewrite Gs.
      destruct (List.length s =? 0); [discriminate|].
      apply IH; auto.
      * apply Forall_app. split; auto. now apply requeue_ok.
      * eapply pending_after_revision; eauto.
Qed.
End Ac3Fixpoint.

(** X7: on a well-formed puzzle in which no slot crosses itself, and a
    node-consistent store of it, a run of [ac3] that returns [True] leaves
    every arc whose first offset is not 0 consistent: every word left in
    the domain of [x] agrees with some word left in the domain of [y] at
    the crossing.  Arcs whose first offset is 0 are never revised. *)
Theorem ac3_true_supports_nonzero_arcs (cw : Crossword) (d d' : domains) :
  wf_crossword cw = true -> no_self_crossing cw = true ->
  wf_domains cw d = true -> node_consistentb d = true ->
  ac3 cw d None = (d', Ret true) ->
  forall x y ix iy xs ys w,
    In x (variables cw) -> In y (variables cw) ->
    crossing cw x y = Some (S ix, iy) ->
    dict_get var_eqb d' x = Some xs -> dict_get var_eqb d' y = Some ys ->
    In w xs ->
    exists yw, In yw ys /\ agree w yw (S ix) iy.
Proof.
  intros W NS WD NC E x y ix iy xs ys w Hx Hy C Gx Gy Hw.
  pose proof (good_nil cw d WD NC) as Hg.
  unfold ac3 in E.
  destruct (initial_arcs_spec cw W (map fst d) []) as (q & Eq & Hq); auto.
  { destruct Hg as (K & _). rewrite K. apply incl_refl. }
  rewrite Eq in E.
  apply supported_agree.
  assert (pending cw d q) as P0.
  { intros u v jx jy us vs w' Hu Hv Cuv Nin. exfalso. apply Nin.
    apply (initial_arcs_contains cw _ _ _ Eq).
    - destruct Hg as (K & _). now rewrite K.
    - now destruct (wf_crossing cw u v (S jx) jy W Hu Hv Cuv).
    - congruence. }
  pose proof (ac3_loop_fixpoint cw W NS _ d q d' Hg Hq P0 E) as P.
  apply (P x y ix iy xs ys w); auto.
Qed.

(** ** [solve] returns *)

Section SearchReturns.
Variable cw : Crossword.
Variable d : domains.
Hypothesis Hwf : wf_crossword cw = true.
Hypothesis Hgood : good cw [] d.

Lemma try_values_returns rec a var :
  over d a -> In var (map fst d) -> dict_mem var_eqb a var = false ->
  (forall value, total_call rec (a ++ [(var, value)])) ->
  forall values calls, exists calls' r,
    try_values cw rec a var values calls = (calls', Ret r).
Proof.
  intros Ha Hv Hm Hrec. destruct Hgood as (K & _).
  induction values as [|value values IH]; intros calls; simpl; eauto.
  destruct (over_extend d a var value Ha Hv Hm) as [-> Hov].
  pose proof (over_wf_assignment cw d _ K Hov) as WA.
  destruct (consistent_spec cw _ Hwf WA) as (b & E & _). rewrite E.
  destruct b; auto.
  destruct (Hrec value calls) as (c & r1 & R). rewrite R.
  destruct r1 as [r'|]; eauto.
Qed.

Lemma backtrack_returns : forall fuel a,
  over d a -> List.length d < fuel + List.length a ->
  total_call (backtrack cw d fuel) a.
Proof.
  induction fuel as [|fuel IH]; intros a Ha Hf calls.
  - apply over_length in Ha. simpl in Hf. lia.
  - simpl. destruct (Nat.eqb_spec (List.length a) (List.length d)) as [L|L]; eauto.
    pose proof Hgood as (K & [ND _] & _).
    destruct (select_unassigned_variable_total d a Ha ND L) as (var & E & Hv & Hm).
    rewrite E.
    assert (In var (variables cw)) as Hvar by now rewrite <- K.
    destruct (order_domain_values_ret cw [] d Hwf Hgood a var Hvar)
      as (s & values & Gs & O & _).
    rewrite O. apply try_values_returns; auto.
    intros value. apply IH.
    + now apply over_extend.
    + rewrite length_app. simpl. lia.
Qed.
End SearchReturns.

Lemma enforce_good cw d :
  wf_domains cw d = true -> good cw [] (map node_filter d).
Proof.
  intros WD. pose proof (wf_domains_keys cw d WD) as K.
  pose proof (wf_domains_store_ok cw d WD) as SO.
  split; [now rewrite node_filter_keys|]. split; [|split].
  - now apply node_filter_store_ok.
  - apply node_filter_consistent.
  - intros v w [].
Qed.

(** X15: on a well-formed puzzle and store, [solve] returns an assignment or
    [None]: neither pass nor the search raises, and the bounds on the
    loops of the model are not reached. *)
Theorem solve_returns (cw : Crossword) (d : domains) :
  wf_crossword cw = true -> wf_domains cw d = true ->
  exists r, result (solve cw d) = Ret r.
Proof.
  intros W WD. pose proof (wf_domains_store_ok cw d WD) as SO.
  destruct (ac3_returns_nil cw _ W (enforce_good cw d WD)) as (d2 & b & A & G2).
  destruct (backtrack_returns cw d2 W G2 (S (List.length d2)) []) with (calls := 0)
    as (c & r & B).
  { apply over_empty. }
  { simpl. lia. }
  exists r. unfold solve. rewrite (enforce_node_consistency_spec d SO), A, B.
  reflexivity.
Qed.

(** ** A slot without a word of its length *)

Lemma shrinks_empty d d' x :
  shrinks d d' -> dict_get var_eqb d x = Some [] -> dict_get var_eqb d' x = Some [].
Proof.
  intros [K H] G. destruct (dict_get var_eqb d' x) as [s'|] eqn:G'.
  - destruct (H x s' G') as (s & Gs & I). rewrite G in Gs. injection Gs as <-.
    destruct s' as [|w s']; auto. destruct (I w). now left.
  - apply (dict_get_None var_eqb var_eqb_spec) in G'. exfalso. apply G'. rewrite K.
    eapply dict_get_key; eauto using var_eqb_spec.
Qed.

Lemma filter_none {A : Type} (f : A -> bool) (l : list A) :
  forallb (fun a => negb (f a)) l = true -> filter f l = [].
Proof.
  induction l as [|a l IH]; simpl; auto.
  destruct (f a); simpl; [discriminate|auto].
Qed.

(** X16: on a well-formed puzzle and store, if the domain of some slot holds no
    word of the slot's length, [solve] returns [None], and the search
    stops in its first call. *)
Theorem solve_without_word_of_length (cw : Crossword) (d : domains) (x : Var)
    (s : list string) :
  wf_crossword cw = true -> wf_domains cw d = true ->
  dict_get var_eqb d x = Some s ->
  forallb (fun w => negb (length_ok x w)) s = true ->
  result (solve cw d) = Ret None /\ backtrack_calls (solve cw d) = 1.
Proof.
  intros W WD G Hs. pose proof (wf_domains_store_ok cw d WD) as SO.
  destruct (ac3_returns_nil cw _ W (enforce_good cw d WD)) as (d2 & b & A & G2).
  assert (dict_get var_eqb (map node_filter d) x = Some []) as G1.
  { rewrite node_filter_get, G. simpl. f_equal. now apply filter_none. }
  assert (dict_get var_eqb d2 x = Some []) as Gx.
  { apply (shrinks_empty (map node_filter d)); auto.
    pose proof (ac3_shrinks cw (map node_filter d) None) as F.
    now rewrite A in F. }
  unfold solve. rewrite (enforce_node_consistency_spec d SO), A.
  rewrite (backtrack_empty_domain cw d2 x (List.length d2) 0 Gx). auto.
Qed.

(** X13: on a well-formed puzzle and a node-consistent store of it,
    [order_domain_values] returns for every slot of the puzzle and every
    assignment: no index is out of range and no key is missing. *)
Theorem order_domain_values_returns (cw : Crossword) (d : domains) (var : Var)
    (a : assignment) :
  wf_crossword cw = true -> wf_domains cw d = true ->
  node_consistentb d = true -> In var (variables cw) ->
  exists s values,
    dict_get var_eqb d var = Some s
    /\ order_domain_values cw d var a = Ret values
    /\ forall w, In w values <-> In w s.
Proof.
  intros W WD NC Hv.
  exact (order_domain_values_ret cw [] d W (good_nil cw d WD NC) a var Hv).
Qed.

(** ** The words of a returned assignment *)

Lemma fill_ordered_values_in cw d a var : forall ws acc ov,
  fill_ordered_values cw d a var ws acc = Ret ov ->
  forall w, In w (map fst ov) -> In w (map fst acc) \/ In w ws.
Proof.
  induction ws as [|w0 ws IH]; intros acc ov; simpl.
  - intros E. injection E as <-. auto.
  - destruct (count_neighbors cw d a var w0 (neighbors cw var) 0) as [k| |];
      simpl; try discriminate.
    intros E w Hw. apply (IH _ _ E) in Hw as [Hw|Hw]; auto.
    apply (dict_set_keys String.eqb String.eqb_spec) in Hw as [->|Hw]; auto.
Qed.

Lemma order_domain_values_in cw d var a values :
  order_domain_values cw d var a = Ret values ->
  exists s, dict_get var_eqb d var = Some s /\ forall w, In w values -> In w s.
Proof.
  unfold order_domain_values, dict_lookup.
  destruct (dict_get var_eqb d var) as [s|]; simpl; [|discriminate].
  destruct (fill_ordered_values cw d a var s []) as [ov| |] eqn:E; simpl;
    try discriminate.
  intros H. injection H as <-. exists s. split; auto. intros w Hw.
  apply sorted_In in Hw. apply (fill_ordered_values_in _ _ _ _ _ _ _ E) in Hw.
  destruct Hw as [[]|Hw]; auto.
Qed.

Lemma try_values_within cw d rec a var s :
  within_call d rec -> supports d a ->
  dict_get var_eqb d var = Some s ->
  forall values calls calls' r,
    incl values s ->
    try_values cw rec a var values calls = (calls', Ret (Some r)) -> supports d r.
Proof.
  intros Hrec Ha G. induction values as [|value values IH];
    intros calls calls' r Hin; simpl; [discriminate|].
  assert (incl values s) as Hin' by (intros u Hu; apply Hin; now right).
  destruct (consistent cw (dict_set var_eqb a var value)) as [[|]| |];
    try discriminate; [|now apply IH].
  destruct (rec (dict_set var_eqb a var value) calls) as [c [[r'|]| |]] eqn:R;
    try discriminate; [|now apply IH].
  intros E. injection E as <- <-. apply (Hrec _ _ _ _) in R; auto.
  intros v w H. apply (dict_set_In var_eqb var_eqb_spec) in H as [[-> ->]|H]; auto.
  exists s. split; auto. apply Hin. now left.
Qed.

Lemma backtrack_within cw d : forall fuel, within_call d (backtrack cw d fuel).
Proof.
  induction fuel as [|fuel IH]; intros a calls calls' r Ha; simpl; [discriminate|].
  destruct (List.length a =? List.length d).
  - intros E. injection E as <- <-. auto.
  - destruct (select_unassigned_variable d a) as [var| |]; try discriminate.
    destruct (order_domain_values cw d var a) as [values| |] eqn:O; try discriminate.
    apply order_domain_values_in in O as (s & G & Hin).
    apply (try_values_within cw d _ a var s); auto.
Qed.

(** X17: every word of an assignment that [solve] returns is a word of the
    domain of its slot, in the store as the passes left it and so in the
    store [solve] started from. *)
Theorem solve_takes_words_from_domains (cw : Crossword) (d : domains)
    (a : assignment) :
  result (solve cw d) = Ret (Some a) ->
  forall v w, In (v, w) a ->
    (exists s', dict_get var_eqb (final_domains (solve cw d)) v = Some s' /\ In w s')
    /\ (exists s, dict_get var_eqb d v = Some s /\ In w s).
Proof.
  intros R. assert (supports (final_domains (solve cw d)) a) as Sup.
  { revert R. unfold solve.
    destruct (enforce_node_consistency d) as [d1 [[]| |]]; try (cbn; discriminate).
    destruct (ac3 cw d1 None) as [d2 [b| |]]; try (cbn; discriminate).
    destruct (backtrack cw d2 (S (List.length d2)) [] 0) as [calls r] eqn:B.
    cbn [result final_domains]. intros ->.
    apply (backtrack_within cw d2 _ [] 0 calls a) in B; auto. intros v w []. }
  intros v w H. destruct (Sup v w H) as (s' & G' & Hw). split; [eauto|].
  destruct (solve_shrinks cw d) as [_ Hs].
  destruct (Hs v s' G') as (s & G & I). eauto.
Qed.

(** ** [letter_grid] *)

Lemma list_set_ret {A : Type} : forall (l : list A) n a,
  n < List.length l ->
  exists l', list_set l n a = Ret l'
    /\ List.length l' = List.length l
    /\ nth_error l' n = Some a
    /\ forall m, m <> n -> nth_error l' m = nth_error l m.
Proof.
  induction l as [|b l IH]; intros n a Hn; simpl in Hn; [lia|].
  destruct n as [|n]; simpl.
  - exists (a :: l). repeat split; auto. intros [|m] Hm; [congruence|reflexivity].
  - destruct (IH n a) as (l' & E & L & G & O); [lia|].
    rewrite E. simpl. exists (b :: l'). repeat split; simpl; auto.
    intros [|m] Hm; simpl; auto.
Qed.

Lemma list_set_raise {A : Type} : forall (l : list A) n a,
  List.length l <= n -> list_set l n a = Raise IndexError.
Proof.
  induction l as [|b l IH]; intros n a Hn; simpl; auto.
  destruct n as [|n]; simpl in *; [lia|]. rewrite IH; auto. lia.
Qed.

Lemma list_set_Forall {A : Type} (P : A -> Prop) : forall (l l' : list A) n a,
  list_set l n a = Ret l' -> Forall P l -> P a -> Forall P l'.
Proof.
  induction l as [|b l IH]; intros l' n a; simpl; [discriminate|].
  destruct n as [|n].
  - intros E F Pa. injection E as <-. inv F. constructor; auto.
  - destruct (list_set l n a) as [l1| |] eqn:E1; simpl; try discriminate.
    intros E F Pa. injection E as <-. inv F. constructor; eauto.
Qed.

Lemma grid_shape_row h w g i row :
  grid_shape h w g -> nth_error g i = Some row -> List.length row = w.
Proof.
  intros [_ F] G. rewrite Forall_forall in F. apply F. eapply nth_error_In; eauto.
Qed.

Lemma grid_set_ret h w g i j c :
  grid_shape h w g -> i < h -> j < w ->
  exists g', grid_set g i j c = Ret g'
    /\ grid_shape h w g'
    /\ grid_get g' i j = Some (Some c)
    /\ forall i' j', (i', j') <> (i, j) -> grid_get g' i' j' = grid_get g i' j'.
Proof.
  intros S Hi Hj. pose proof S as [L F]. unfold grid_set, grid_get.
  destruct (nth_error g i) as [row|] eqn:G.
  2:{ apply nth_error_None in G. lia. }
  pose proof (grid_shape_row h w g i row S G) as Lr.
  destruct (list_set_ret row j (Some c)) as (row' & E & L' & G' & O'); [lia|].
  rewrite E. simpl.
  destruct (list_set_ret g i row') as (g' & Eg & Lg & Gg & Og); [lia|].
  exists g'. split; auto. split; [|split].
  - split; [congruence|]. eapply list_set_Forall; eauto. congruence.
  - now rewrite Gg.
  - intros i' j' N. destruct (Nat.eq_dec i' i) as [->|Ni].
    + rewrite Gg, G. apply O'. congruence.
    + now rewrite Og.
Qed.

Lemma grid_set_raise h w g i j c :
  grid_shape h w g -> ~ (i < h /\ j < w) -> grid_set g i j c = Raise IndexError.
Proof.
  intros S N. pose proof S as [L F]. unfold grid_set.
  destruct (nth_error g i) as [row|] eqn:G; auto.
  pose proof (grid_shape_row h w g i row S G) as Lr.
  assert (i < h) by (rewrite <- L; apply nth_error_Some; congruence).
  rewrite list_set_raise; auto. lia.
Qed.

Lemma blank_grid_shape h w : grid_shape h w (blank_grid h w).
Proof.
  unfold blank_grid. split; [apply repeat_length|].
  apply Forall_forall. intros row H. apply repeat_spec in H. subst.
  apply repeat_length.
Qed.

Lemma nth_error_repeat_lt {A : Type} (a : A) : forall n i,
  i < n -> nth_error (repeat a n) i = Some a.
Proof.
  induction n as [|n IH]; intros i H; [lia|]. destruct i; simpl; auto. apply IH. lia.
Qed.

Lemma blank_grid_get h w i j :
  i < h -> j < w -> grid_get (blank_grid h w) i j = Some None.
Proof.
  intros Hi Hj. unfold grid_get, blank_grid.
  rewrite nth_error_repeat_lt by auto. now apply nth_error_repeat_lt.
Qed.

Lemma put_all_app : forall ws1 ws2 g,
  put_all (ws1 ++ ws2) g = (g' <- put_all ws1 g ;; put_all ws2 g').
Proof.
  induction ws1 as [|[cell c] ws1 IH]; intros ws2 g; simpl; auto.
  destruct (grid_set g (fst cell) (snd cell) c); simpl; auto.
Qed.

Lemma place_word_put variable word : forall ks g,
  (forall k, In k ks -> k < String.length word) ->
  place_word variable word ks g = put_all (letter_writes variable word ks) g.
Proof.
  induction ks as [|k ks IH]; intros g Hk; simpl; auto.
  destruct (string_get_lt word k) as (c & G); [apply Hk; now left|].
  unfold index. rewrite G. simpl.
  destruct (grid_set g _ _ c); simpl; auto. apply IH. intros k' H. apply Hk. now right.
Qed.

Lemma place_words_put : forall items g,
  place_words items g = put_all (writes items) g.
Proof.
  induction items as [|[v word] items IH]; intros g; simpl; auto.
  unfold writes. simpl. rewrite put_all_app.
  unfold word_writes. rewrite place_word_put.
  - destruct (put_all _ g); simpl; auto; apply IH.
  - intros k H. apply in_seq in H. lia.
Qed.

Lemma string_get_Some_lt : forall (s : string) k c,
  String.get k s = Some c -> k < String.length s.
Proof.
  induction s as [|c0 s IH]; intros k c; simpl; [discriminate|].
  destruct k; [lia|]. intros H. apply IH in H. lia.
Qed.

Lemma writes_In a cell c :
  In (cell, c) (writes a)
  <-> exists v word k, In (v, word) a /\ String.get k word = Some c
                       /\ cell = letter_cell v k.
Proof.
  unfold writes, word_writes, letter_writes. rewrite in_flat_map. split.
  - intros ([v word] & He & H). simpl in H. apply in_flat_map in H as (k & Hk & H).
    destruct (String.get k word) as [c'|] eqn:G; [|destruct H].
    destruct H as [E|[]]. injection E as <- <-. exists v, word, k. auto.
  - intros (v & word & k & He & G & ->). exists (v, word). split; auto. simpl.
    apply in_flat_map. exists k. split.
    + apply in_seq. apply string_get_Some_lt in G. lia.
    + rewrite G. now left.
Qed.

Lemma put_all_untouched : forall ws g g',
  put_all ws g = Ret g' ->
  forall i j, ~ In (i, j) (map fst ws) -> grid_get g' i j = grid_get g i j.
Proof.
  induction ws as [|[[i0 j0] c] ws IH]; intros g g'; simpl.
  - intros E. injection E as <-. auto.
  - destruct (grid_set g i0 j0 c) as [g1| |] eqn:E1; simpl; try discriminate.
    intros E i j N. rewrite (IH _ _ E) by tauto.
    unfold grid_set in E1. destruct (nth_error g i0) as [row|] eqn:G; [|discriminate].
    destruct (list_set row j0 (Some c)) as [row'| |] eqn:Er; simpl in E1; try discriminate.
    assert (j0 < List.length row) as Lj.
    { destruct (Nat.lt_ge_cases j0 (List.length row)) as [H|H]; auto.
      rewrite list_set_raise in Er by auto. discriminate. }
    assert (i0 < List.length g) as Li by (apply nth_error_Some; congruence).
    destruct (list_set_ret row j0 (Some c) Lj) as (r2 & E2 & _ & _ & O2).
    destruct (list_set_ret g i0 row' Li) as (g2 & E3 & _ & G3 & O3).
    rewrite Er in E2. injection E2 as <-. rewrite E1 in E3. injection E3 as <-.
    unfold grid_get. destruct (Nat.eq_dec i i0) as [->|Ni].
    + rewrite G3, G. apply O2. intros ->. apply N. now left.
    + now rewrite O3.
Qed.

Lemma put_all_shape h w : forall ws g g',
  grid_shape h w g -> put_all ws g = Ret g' -> grid_shape h w g'.
Proof.
  induction ws as [|[[i0 j0] c] ws IH]; intros g g' S; simpl.
  - intros E. now injection E as <-.
  - destruct (grid_set g i0 j0 c) as [g1| |] eqn:E1; simpl; try discriminate.
    apply IH.
    destruct (Nat.lt_ge_cases i0 h) as [Hi|Hi], (Nat.lt_ge_cases j0 w) as [Hj|Hj];
      try (rewrite (grid_set_raise h w) in E1 by (auto; lia); discriminate).
    destruct (grid_set_ret h w g i0 j0 c S Hi Hj) as (g2 & E2 & S2 & _).
    congruence.
Qed.

Lemma put_all_last h w : forall ws g g',
  grid_shape h w g -> put_all ws g = Ret g' ->
  (forall cell c c', In (cell, c) ws -> In (cell, c') ws -> c = c') ->
  forall cell c, In (cell, c) ws ->
    grid_get g' (fst cell) (snd cell) = Some (Some c).
Proof.
  induction ws as [|[[i0 j0] c0] ws IH]; intros g g' S; simpl; [intros _ _ ? ? []|].
  destruct (grid_set g i0 j0 c0) as [g1| |] eqn:E1; simpl; try discriminate.
  intros E Ag cell c H.
  assert (i0 < h /\ j0 < w) as [Hi Hj].
  { destruct (Nat.lt_ge_cases i0 h) as [Hi|Hi], (Nat.lt_ge_cases j0 w) as [Hj|Hj];
      auto; rewrite (grid_set_raise h w) in E1 by (auto; lia); discriminate. }
  destruct (grid_set_ret h w g i0 j0 c0 S Hi Hj) as (g2 & E2 & S2 & G2 & _).
  rewrite E1 in E2. injection E2 as <-.
  assert (forall p q : nat * nat, {p = q} + {p <> q}) as dec
    by (decide equality; apply Nat.eq_dec).
  destruct (in_dec dec cell (map fst ws)) as [Hin|Hout].
  - apply in_map_iff in Hin as ([cell' c'] & Ec & Hin). simpl in Ec. subst cell'.
    assert (c = c') as -> by (apply (Ag cell); auto).
    apply (IH g1 g' S2 E); auto. intros; eapply Ag; eauto.
  - destruct H as [H|H].
    + injection H as <- <-. simpl.
      rewrite (put_all_untouched _ _ _ E) by auto. exact G2.
    + exfalso. apply Hout. now apply (in_map fst) in H.
Qed.

Lemma put_all_raise h w : forall ws g,
  grid_shape h w g ->
  (exists cell c, In (cell, c) ws /\ ~ (fst cell < h /\ snd cell < w)) ->
  put_all ws g = Raise IndexError.
Proof.
  induction ws as [|[[i0 j0] c0] ws IH]; intros g S (cell & c & H & N); simpl;
    [destruct H|].
  destruct (Nat.lt_ge_cases i0 h) as [Hi|Hi], (Nat.lt_ge_cases j0 w) as [Hj|Hj];
    try (rewrite (grid_set_raise h w) by (auto; lia); reflexivity).
  destruct (grid_set_ret h w g i0 j0 c0 S Hi Hj) as (g1 & E1 & S1 & _).
  rewrite E1. simpl. apply IH; auto.
  destruct H as [H|H]; [|eauto]. injection H as <- <-. simpl in N. tauto.
Qed.

Lemma put_all_ret h w : forall ws g,
  grid_shape h w g ->
  (forall cell c, In (cell, c) ws -> fst cell < h /\ snd cell < w) ->
  exists g', put_all ws g = Ret g'.
Proof.
  induction ws as [|[[i0 j0] c0] ws IH]; intros g S H; simpl; eauto.
  destruct (H (i0, j0) c0) as [Hi Hj]; [now left|]. simpl in Hi, Hj.
  destruct (grid_set_ret h w g i0 j0 c0 S Hi Hj) as (g1 & E1 & S1 & _).
  rewrite E1. simpl. apply IH; auto. intros cell c Hin. apply (H cell c). now right.
Qed.

(** X19: when every letter of the assignment falls inside the array,
    [letter_grid] returns an array of [height] rows of [width] cells. *)
Theorem letter_grid_returns_array (height width : nat) (a : assignment) :
  fits height width a ->
  exists g, letter_grid height width a = Ret g /\ grid_shape height width g.
Proof.
  intros F. unfold letter_grid. rewrite place_words_put.
  destruct (put_all_ret height width (writes a) (blank_grid height width))
    as (g & E); [apply blank_grid_shape| |].
  - intros cell c H. apply writes_In in H as (v & word & k & Hv & G & ->).
    apply (F v word k); auto. eapply string_get_Some_lt; eauto.
  - exists g. split; auto. eapply put_all_shape; eauto using blank_grid_shape.
Qed.

(** X20: when some letter of the assignment falls outside the array,
    [letter_grid] raises [IndexError]. *)
Theorem letter_grid_outside_raises (height width : nat) (a : assignment)
    (v : Var) (word : string) (k : nat) :
  In (v, word) a -> k < String.length word ->
  ~ (fst (letter_cell v k) < height /\ snd (letter_cell v k) < width) ->
  letter_grid height width a = Raise IndexError.
Proof.
  intros Hv Hk N. unfold letter_grid. rewrite place_words_put.
  apply (put_all_raise height width); [apply blank_grid_shape|].
  destruct (string_get_lt word k Hk) as (c & G).
  exists (letter_cell v k), c. split; auto. apply writes_In. eauto 6.
Qed.

(** X21: when the letters of the assignment agree wherever two of them fall in
    the same cell, the array [letter_grid] returns shows every letter of
    every word at its cell, and [None] in every cell no letter falls in. *)
Theorem letter_grid_shows_assignment (height width : nat) (a : assignment)
    (g : grid) :
  letters_agree a ->
  letter_grid height width a = Ret g ->
  (forall v word k c,
     In (v, word) a -> String.get k word = Some c ->
     grid_get g (fst (letter_cell v k)) (snd (letter_cell v k)) = Some (Some c))
  /\ (forall i j,
        i < height -> j < width ->
        (forall v word k, In (v, word) a -> k < String.length word ->
                          letter_cell v k <> (i, j)) ->
        grid_get g i j = Some None).
Proof.
  intros Ag E. unfold letter_grid in E. rewrite place_words_put in E. split.
  - intros v word k c Hv G.
    apply (put_all_last height width (writes a) _ g (blank_grid_shape _ _) E).
    + intros cell c1 c2 H1 H2.
      apply writes_In in H1 as (v1 & w1 & k1 & I1 & G1 & ->).
      apply writes_In in H2 as (v2 & w2 & k2 & I2 & G2 & E2).
      exact (Ag v1 w1 k1 c1 v2 w2 k2 c2 I1 I2 G1 G2 E2).
    + apply writes_In. eauto 6.
  - intros i j Hi Hj N. rewrite (put_all_untouched _ _ _ E).
    + now apply blank_grid_get.
    + intros H. apply in_map_iff in H as ([cell c] & Ec & H). simpl in Ec. subst cell.
      apply writes_In in H as (v & word & k & Hv & G & Ec).
      apply (N v word k); auto. eapply string_get_Some_lt; eauto.
Qed.

(** The tests of the two hypotheses. *)
Lemma fitsb_fits h w a : fitsb h w a = true -> fits h w a.
Proof.
  unfold fitsb. rewrite forallb_forall. intros H v word k Hv Hk.
  destruct (string_get_lt word k Hk) as (c & G).
  specialize (H (letter_cell v k, c)). simpl in H.
  apply andb_true_iff in H as [H1 H2].
  - apply Nat.ltb_lt in H1, H2. auto.
  - apply writes_In. eauto 6.
Qed.

Lemma letters_agreeb_agree a : letters_agreeb a = true -> letters_agree a.
Proof.
  unfold letters_agreeb. rewrite forallb_forall.
  intros H v1 w1 k1 c1 v2 w2 k2 c2 I1 I2 G1 G2 E.
  specialize (H (letter_cell v1 k1, c1)). rewrite forallb_forall in H.
  assert (In (letter_cell v1 k1, c1) (writes a)) as H1 by (apply writes_In; eauto 6).
  assert (In (letter_cell v2 k2, c2) (writes a)) as H2 by (apply writes_In; eauto 6).
  specialize (H H1 _ H2). simpl in H. rewrite E in H.
  unfold cell_eqb in H. rewrite !Nat.eqb_refl in H. simpl in H.
  now apply Ascii.eqb_eq in H.
Qed.

(** * Runs on the sample puzzles *)

Import Samples.

(** ** [order_domain_values] sorts by the words alone *)

Lemma fill_ordered_values_keys cw d a var : forall ws acc ov,
  NoDup (map fst acc ++ ws) ->
  fill_ordered_values cw d a var ws acc = Ret ov ->
  map fst ov = map fst acc ++ ws.
Proof.
  induction ws as [|w ws IH]; intros acc ov ND; simpl.
  - intros E. injection E as <-. now rewrite app_nil_r.
  - destruct (count_neighbors cw d a var w (neighbors cw var) 0) as [k| |];
      simpl; try discriminate.
    intros E. apply IH in E.
    + rewrite E, (dict_set_new String.eqb String.eqb_spec), map_app, <- app_assoc; auto.
      apply NoDup_remove_2 in ND. intros H. apply ND, in_or_app. auto.
    + rewrite (dict_set_new String.eqb String.eqb_spec), map_app, <- app_assoc; auto.
      apply NoDup_remove_2 in ND. intros H. apply ND, in_or_app. auto.
Qed.

Lemma order_domain_values_sorted cw d var a s values :
  dict_get var_eqb d var = Some s -> NoDup s ->
  order_domain_values cw d var a = Ret values ->
  values = sorted String.leb s.
Proof.
  intros G ND. unfold order_domain_values, dict_lookup. rewrite G. simpl.
  destruct (fill_ordered_values cw d a var s []) as [ov| |] eqn:E; simpl; try discriminate.
  apply fill_ordered_values_keys in E; auto. simpl in E. rewrite E. congruence.
Qed.

(** C4: [order_domain_values] does not order by the number of words ruled
    out.  On the puzzle [lcv], in the store [solve] searches, the first
    call [backtrack] makes returns the words of [B] in the order of
    strings, with [ABB], which rules out three words of [A], ahead of
    [BBA], which rules out none. *)
Theorem order_domain_values_ignores_counts :
  let d := [(B, ["ABB"; "BBA"; "CBC"]); (A, ["ABB"; "BBA"; "CBC"])]%string in
  final_domains (solve lcv (init_domains lcv)) = d
  /\ select_unassigned_variable d [] = Ret B
  /\ order_domain_values lcv d B [] = Ret ["ABB"; "BBA"; "CBC"]%string
  /\ ruled_out lcv d [] B "ABB" = Ret 3
  /\ ruled_out lcv d [] B "BBA" = Ret 0.
Proof. vm_compute. repeat split. Qed.

(** C5: on two slots whose entry in the crossing map is [None],
    [revise] leaves the store as it is but raises [TypeError] instead of
    returning [False]. *)
Theorem revise_no_crossing_raises :
  dict_get arc_eqb (overlaps apart) (R, T) = Some None
  /\ revise apart (init_domains apart) R T = (init_domains apart, Raise TypeError).
Proof. split; reflexivity. Qed.

(** C6: a run of [ac3] that returns [True] need not leave the store arc
    consistent.  On the puzzle [corner], whose two slots cross at offset 0
    of both, [ac3] returns [True] and keeps [CD] in the domain of [P],
    though no word of the domain of [Q] starts with [C]. *)
Theorem ac3_true_not_arc_consistent :
  let d := [(P, ["AB"; "CD"]); (Q, ["AXY"])]%string in
  enforce_node_consistency (init_domains corner) = (d, Ret tt)
  /\ ac3 corner d None = (d, Ret true)
  /\ crossing corner P Q = Some (0, 0)
  /\ supported ["AXY"]%string 0 0 "CD" = false
  /\ ~ arc_consistent corner d.
Proof.
  repeat (split; [vm_compute; reflexivity|]).
  intros H. specialize (H P Q 0 0 ["AB"; "CD"]%string ["AXY"]%string "CD"%string).
  assert (supported ["AXY"]%string 0 0 "CD" = true) as E.
  { apply H; try reflexivity. simpl. auto. }
  vm_compute in E. discriminate.
Qed.

(** C1 as stated fails: on the puzzle [cross_bad], [ac3] empties the
    domain of [A] and returns [False], and [solve] returns [None], but
    [backtrack] has been entered once, not never. *)
Lemma solve_enters_backtrack_after_failed_ac3 :
  let d1 := [(A, ["CAT"; "TOM"]); (B, ["CAT"; "TOM"])]%string in
  let d2 := [(A, []); (B, ["CAT"; "TOM"])]%string in
  enforce_node_consistency (init_domains cross_bad) = (d1, Ret tt)
  /\ ac3 cross_bad d1 None = (d2, Ret false)
  /\ backtrack_calls (solve cross_bad (init_domains cross_bad)) = 1
  /\ ~ (result (solve cross_bad (init_domains cross_bad)) = Ret None
        /\ backtrack_calls (solve cross_bad (init_domains cross_bad)) = 0).
Proof.
  repeat (split; [vm_compute; reflexivity|]).
  intros [_ H]. vm_compute in H. discriminate.
Qed.

Lemma solve_after_failed_ac3_witness :
  let d1 := [(A, ["CAT"; "TOM"]); (B, ["CAT"; "TOM"])]%string in
  let d2 := [(A, []); (B, ["CAT"; "TOM"])]%string in
  enforce_node_consistency (init_domains cross_bad) = (d1, Ret tt)
  /\ ac3 cross_bad d1 None = (d2, Ret false)
  /\ (exists x, dict_get var_eqb d2 x = Some [])
  /\ (exists var, select_unassigned_variable d2 [] = Ret var
                  /\ dict_get var_eqb d2 var = Some []
                  /\ order_domain_values cross_bad d2 var [] = Ret [])
  /\ solve cross_bad (init_domains cross_bad) = mkRun d2 1 (Ret None).
Proof.
  assert (enforce_node_consistency (init_domains cross_bad)
          = ([(A, ["CAT"; "TOM"]); (B, ["CAT"; "TOM"])]%string, Ret tt)) as E1
    by (vm_compute; reflexivity).
  assert (ac3 cross_bad [(A, ["CAT"; "TOM"]); (B, ["CAT"; "TOM"])]%string None
          = ([(A, []); (B, ["CAT"; "TOM"])]%string, Ret false)) as E2
    by (vm_compute; reflexivity).
  split; [exact E1|]. split; [exact E2|].
  exact (solve_after_failed_ac3 cross_bad _ _ _ E1 E2).
Defined.

Lemma solve_complete_witness :
  let sol := [(A, "CAT"); (B, "APE")]%string in
  wf_crossword cross_ok = true
  /\ wf_domains cross_ok (init_domains cross_ok) = true
  /\ wf_assignment cross_ok sol = true
  /\ assignment_complete (init_domains cross_ok) sol = true
  /\ withinb (init_domains cross_ok) sol = true
  /\ consistent cross_ok sol = Ret true
  /\ exists r,
       result (solve cross_ok (init_domains cross_ok)) = Ret (Some r)
       /\ assignment_complete (init_domains cross_ok) r = true
       /\ consistent cross_ok r = Ret true.
Proof.
  repeat (split; [vm_compute; reflexivity|]).
  apply (solve_complete cross_ok (init_domains cross_ok) [(A, "CAT"); (B, "APE")]%string);
    vm_compute; reflexivity.
Defined.

Lemma solve_sound_witness :
  let a := [(A, "CAT"); (B, "APE")]%string in
  result (solve cross_ok (init_domains cross_ok)) = Ret (Some a)
  /\ assignment_complete (init_domains cross_ok) a = true
  /\ consistent cross_ok a = Ret true.
Proof.
  assert (result (solve cross_ok (init_domains cross_ok))
          = Ret (Some [(A, "CAT"); (B, "APE")]%string)) as E by (vm_compute; reflexivity).
  split; [exact E|].
  destruct (solve_sound cross_ok (init_domains cross_ok) _ E) as (H1 & H2 & _).
  split; assumption.
Defined.

Lemma enforce_node_consistency_filters_witness :
  store_okb (init_domains cross_ok) = true
  /\ exists d',
       enforce_node_consistency (init_domains cross_ok) = (d', Ret tt)
       /\ map fst d' = map fst (init_domains cross_ok)
       /\ forall var s, dict_get var_eqb (init_domains cross_ok) var = Some s ->
            exists s', dict_get var_eqb d' var = Some s'
              /\ (forall w, In w s' -> String.length w = var_length var)
              /\ (forall w, In w s' <-> In w s /\ String.length w = var_length var).
Proof.
  split; [vm_compute; reflexivity|].
  apply (enforce_node_consistency_filters (init_domains cross_ok)).
  vm_compute; reflexivity.
Defined.

Lemma consistent_iff_witness :
  let a := [(A, "CAT"); (B, "APE")]%string in
  wf_crossword cross_ok = true /\ wf_assignment cross_ok a = true
  /\ (consistent cross_ok a = Ret true
      <-> distinct_words a /\ lengths_match a /\ crossings_agree cross_ok a)
  /\ (consistent cross_ok a = Ret false
      <-> ~ (distinct_words a /\ lengths_match a /\ crossings_agree cross_ok a)).
Proof.
  split; [vm_compute; reflexivity|]. split; [vm_compute; reflexivity|].
  apply (consistent_iff cross_ok [(A, "CAT"); (B, "APE")]%string); vm_compute; reflexivity.
Defined.

Lemma select_unassigned_variable_mrv_witness :
  let d := [(A, ["CAT"; "APE"]); (B, ["APE"])]%string in
  let a : assignment := [] in
  assignment_complete d a = false
  /\ exists var s,
       select_unassigned_variable d a = Ret var
       /\ In var (map fst d)
       /\ dict_mem var_eqb a var = false
       /\ dict_get var_eqb d var = Some s
       /\ forall u su, In u (map fst d) -> dict_mem var_eqb a u = false ->
            dict_get var_eqb d u = Some su -> List.length s <= List.length su.
Proof.
  split; [vm_compute; reflexivity|].
  apply (select_unassigned_variable_mrv [(A, ["CAT"; "APE"]); (B, ["APE"])]%string []).
  vm_compute; reflexivity.
Defined.

Lemma revise_mutates_only_x_witness :
  B <> A
  /\ dict_get var_eqb (fst (revise cross_bad (init_domains cross_bad) A B)) B
     = dict_get var_eqb (init_domains cross_bad) B.
Proof.
  assert (B <> A) as N by (intros H; discriminate H).
  split; [exact N|].
  exact (revise_mutates_only_x cross_bad (init_domains cross_bad) A B B N).
Defined.

(** ** The order of [order_domain_values] *)

Lemma insert_sorted_Sorted {A : Type} (leb : A -> A -> bool)
    (leb_total : forall a b, leb a b = true \/ leb b a = true) a l :
  Sorted (fun u v => leb u v = true) l ->
  Sorted (fun u v => leb u v = true) (insert_sorted leb a l).
Proof.
  induction l as [|b l IH]; intros S; simpl.
  - repeat constructor.
  - destruct (leb a b) eqn:L.
    + constructor; auto.
    + inv S. constructor; auto.
      destruct l as [|c l]; simpl.
      * constructor. destruct (leb_total a b); congruence.
      * destruct (leb a c); constructor.
        -- destruct (leb_total a b); congruence.
        -- now inv H2.
Qed.

Lemma sorted_Sorted {A : Type} (leb : A -> A -> bool)
    (leb_total : forall a b, leb a b = true \/ leb b a = true) l :
  Sorted (fun u v => leb u v = true) (sorted leb l).
Proof.
  induction l as [|a l IH]; simpl; [constructor|].
  now apply insert_sorted_Sorted.
Qed.

(** X14: when [order_domain_values] returns, it returns the words of the domain
    of [var], each once, in ascending order of the strings: the list is a
    permutation of the domain in which each word is at most the next one.
    Neither the assignment nor the counts have a part in the order. *)
Theorem order_domain_values_is_sorted_domain (cw : Crossword) (d : domains)
    (var : Var) (a : assignment) (s values : list string) :
  dict_get var_eqb d var = Some s -> nodupb String.eqb s = true ->
  order_domain_values cw d var a = Ret values ->
  Permutation values s
  /\ Sorted (fun u v => String.leb u v = true) values
  /\ forall a' values', order_domain_values cw d var a' = Ret values' ->
                        values' = values.
Proof.
  intros G ND O. apply (nodupb_NoDup String.eqb String.eqb_spec) in ND.
  pose proof (order_domain_values_sorted cw d var a s values G ND O) as ->.
  split; [apply sorted_perm|]. split; [apply sorted_Sorted, String.leb_total|].
  intros a' values' O'.
  exact (order_domain_values_sorted cw d var a' s values' G ND O').
Qed.

(** ** The further properties on the sample puzzles *)

Lemma init_domains_well_formed_witness :
  nodupb var_eqb (variables cross_ok) = true
  /\ nodupb String.eqb (words cross_ok) = true
  /\ wf_domains cross_ok (init_domains cross_ok) = true
  /\ map fst (init_domains cross_ok) = variables cross_ok
  /\ forall var, In var (variables cross_ok) ->
       dict_get var_eqb (init_domains cross_ok) var = Some (words cross_ok).
Proof.
  split; [vm_compute; reflexivity|]. split; [vm_compute; reflexivity|].
  apply (init_domains_well_formed cross_ok); vm_compute; reflexivity.
Defined.

Lemma enforce_node_consistency_idempotent_witness :
  store_okb (init_domains cross_ok) = true
  /\ exists d1,
       enforce_node_consistency (init_domains cross_ok) = (d1, Ret tt)
       /\ enforce_node_consistency d1 = (d1, Ret tt).
Proof.
  split; [vm_compute; reflexivity|].
  apply (enforce_node_consistency_idempotent (init_domains cross_ok)).
  vm_compute; reflexivity.
Defined.

Lemma revise_reports_revision_witness :
  let d := [(A, ["CAT"; "TOM"]); (B, ["CAT"; "TOM"])]%string in
  let d' := [(A, []); (B, ["CAT"; "TOM"])]%string in
  revise cross_bad d A B = (d', Ret true)
  /\ (true = false -> d' = d)
  /\ (true = true -> exists s s',
        dict_get var_eqb d A = Some s /\ dict_get var_eqb d' A = Some s'
        /\ incl s' s /\ List.length s' < List.length s).
Proof.
  assert (revise cross_bad [(A, ["CAT"; "TOM"]); (B, ["CAT"; "TOM"])]%string A B
          = ([(A, []); (B, ["CAT"; "TOM"])]%string, Ret true)) as E
    by (vm_compute; reflexivity).
  split; [exact E|]. exact (revise_reports_revision cross_bad _ _ A B true E).
Defined.

Lemma revise_keeps_supported_words_witness :
  let d := [(A, ["CAT"; "APE"]); (B, ["CAT"; "APE"])]%string in
  wf_crossword cross_ok = true /\ wf_domains cross_ok d = true
  /\ node_consistentb d = true
  /\ In A (variables cross_ok) /\ In B (variables cross_ok)
  /\ crossing cross_ok A B = Some (1, 0)
  /\ exists xs ys xs' b,
       dict_get var_eqb d A = Some xs /\ dict_get var_eqb d B = Some ys
       /\ revise cross_ok d A B = (dict_set var_eqb d A xs', Ret b)
       /\ (forall w, In w xs' <->
                     In w xs /\ exists yw, In yw ys /\ agree w yw 1 0)
       /\ (b = false <-> xs' = xs).
Proof.
  assert (In A (variables cross_ok)) as HA by (simpl; auto).
  assert (In B (variables cross_ok)) as HB by (simpl; auto).
  repeat (split; [vm_compute; reflexivity|]).
  split; [exact HA|]. split; [exact HB|]. split; [vm_compute; reflexivity|].
  apply (revise_keeps_supported_words cross_ok
           [(A, ["CAT"; "APE"]); (B, ["CAT"; "APE"])]%string A B 0 0);
    auto; vm_compute; reflexivity.
Defined.

Lemma ac3_true_keeps_domains_nonempty_witness :
  let d := [(A, ["CAT"; "APE"]); (B, ["CAT"; "APE"])]%string in
  let d' := [(A, ["CAT"]); (B, ["CAT"; "APE"])]%string in
  ac3 cross_ok d None = (d', Ret true)
  /\ dict_get var_eqb d A = Some ["CAT"; "APE"]%string
  /\ ["CAT"; "APE"]%string <> []
  /\ exists s', dict_get var_eqb d' A = Some s' /\ s' <> [].
Proof.
  assert (ac3 cross_ok [(A, ["CAT"; "APE"]); (B, ["CAT"; "APE"])]%string None
          = ([(A, ["CAT"]); (B, ["CAT"; "APE"])]%string, Ret true)) as E
    by (vm_compute; reflexivity).
  assert (["CAT"; "APE"]%string <> []) as N by discriminate.
  split; [exact E|]. split; [reflexivity|]. split; [exact N|].
  exact (ac3_true_keeps_domains_nonempty cross_ok _ _ E A _ eq_refl N).
Defined.

Lemma ac3_false_leaves_empty_domain_witness :
  let d := [(A, ["CAT"; "TOM"]); (B, ["CAT"; "TOM"])]%string in
  let d' := [(A, []); (B, ["CAT"; "TOM"])]%string in
  ac3 cross_bad d None = (d', Ret false)
  /\ exists x, In x (map fst d) /\ dict_get var_eqb d' x = Some [].
Proof.
  assert (ac3 cross_bad [(A, ["CAT"; "TOM"]); (B, ["CAT"; "TOM"])]%string None
          = ([(A, []); (B, ["CAT"; "TOM"])]%string, Ret false)) as E
    by (vm_compute; reflexivity).
  split; [exact E|]. exact (ac3_false_leaves_empty_domain cross_bad _ _ E).
Defined.

Lemma ac3_returns_witness :
  let d := [(A, ["CAT"; "APE"]); (B, ["CAT"; "APE"])]%string in
  wf_crossword cross_ok = true /\ wf_domains cross_ok d = true
  /\ node_consistentb d = true
  /\ exists d' b,
       ac3 cross_ok d None = (d', Ret b)
       /\ wf_domains cross_ok d' = true /\ node_consistentb d' = true.
Proof.
  repeat (split; [vm_compute; reflexivity|]).
  apply (ac3_returns cross_ok [(A, ["CAT"; "APE"]); (B, ["CAT"; "APE"])]%string);
    vm_compute; reflexivity.
Defined.

Lemma ac3_true_supports_nonzero_arcs_witness :
  let d := [(A, ["CAT"; "APE"]); (B, ["CAT"; "APE"])]%string in
  let d' := [(A, ["CAT"]); (B, ["CAT"; "APE"])]%string in
  wf_crossword cross_ok = true /\ no_self_crossing cross_ok = true
  /\ wf_domains cross_ok d = true /\ node_consistentb d = true
  /\ ac3 cross_ok d None = (d', Ret true)
  /\ In A (variables cross_ok) /\ In B (variables cross_ok)
  /\ crossing cross_ok A B = Some (1, 0)
  /\ dict_get var_eqb d' A = Some ["CAT"]%string
  /\ dict_get var_eqb d' B = Some ["CAT"; "APE"]%string
  /\ In "CAT"%string ["CAT"]%string
  /\ exists yw, In yw ["CAT"; "APE"]%string /\ agree "CAT" yw 1 0.
Proof.
  assert (In A (variables cross_ok)) as HA by (simpl; auto).
  assert (In B (variables cross_ok)) as HB by (simpl; auto).
  assert (In "CAT"%string ["CAT"]%string) as HW by (simpl; auto).
  repeat (split; [vm_compute; reflexivity|]).
  split; [exact HA|]. split; [exact HB|].
  repeat (split; [vm_compute; reflexivity|]).
  split; [exact HW|].
  apply (ac3_true_supports_nonzero_arcs cross_ok
           [(A, ["CAT"; "APE"]); (B, ["CAT"; "APE"])]%string
           [(A, ["CAT"]); (B, ["CAT"; "APE"])]%string)
    with (x := A) (y := B) (xs := ["CAT"]%string); auto; vm_compute; reflexivity.
Defined.

Lemma select_unassigned_variable_none_left_witness :
  let d := [(A, ["CAT"]); (B, ["CAT"; "APE"])]%string in
  let a := [(A, "CAT"); (B, "APE")]%string in
  assignment_complete d a = true
  /\ select_unassigned_variable d a = Raise IndexError.
Proof.
  split; [vm_compute; reflexivity|].
  apply (select_unassigned_variable_none_left
           [(A, ["CAT"]); (B, ["CAT"; "APE"])]%string [(A, "CAT"); (B, "APE")]%string).
  vm_compute; reflexivity.
Defined.

Lemma assignment_complete_is_length_test_witness :
  let d := [(A, ["CAT"]); (B, ["CAT"; "APE"])]%string in
  let a := [(A, "CAT")]%string in
  store_okb d = true /\ overb d a = true
  /\ assignment_complete d a = (List.length a =? List.length d).
Proof.
  split; [vm_compute; reflexivity|]. split; [vm_compute; reflexivity|].
  apply (assignment_complete_is_length_test
           [(A, ["CAT"]); (B, ["CAT"; "APE"])]%string [(A, "CAT")]%string);
    vm_compute; reflexivity.
Defined.

Lemma consistent_on_part_witness :
  let a := [(A, "CAT"); (B, "APE")]%string in
  let part := [(B, "APE")]%string in
  wf_crossword cross_ok = true
  /\ wf_assignment cross_ok a = true /\ consistent cross_ok a = Ret true
  /\ wf_assignment cross_ok part = true /\ incl part a
  /\ consistent cross_ok part = Ret true.
Proof.
  assert (incl [(B, "APE")]%string [(A, "CAT"); (B, "APE")]%string) as I
    by (intros e [<-|[]]; simpl; auto).
  repeat (split; [vm_compute; reflexivity|]). split; [exact I|].
  apply (consistent_on_part cross_ok [(A, "CAT"); (B, "APE")]%string [(B, "APE")]%string);
    auto; vm_compute; reflexivity.
Defined.

Lemma solve_returns_witness :
  wf_crossword cross_bad = true
  /\ wf_domains cross_bad (init_domains cross_bad) = true
  /\ exists r, result (solve cross_bad (init_domains cross_bad)) = Ret r.
Proof.
  split; [vm_compute; reflexivity|]. split; [vm_compute; reflexivity|].
  apply (solve_returns cross_bad (init_domains cross_bad)); vm_compute; reflexivity.
Defined.

Lemma solve_without_word_of_length_witness :
  let cw := make_crossword [A; B] ["HORSE"]%string in
  wf_crossword cw = true /\ wf_domains cw (init_domains cw) = true
  /\ dict_get var_eqb (init_domains cw) A = Some ["HORSE"]%string
  /\ forallb (fun w => negb (length_ok A w)) ["HORSE"]%string = true
  /\ result (solve cw (init_domains cw)) = Ret None
  /\ backtrack_calls (solve cw (init_domains cw)) = 1.
Proof.
  repeat (split; [vm_compute; reflexivity|]).
  apply (solve_without_word_of_length (make_crossword [A; B] ["HORSE"]%string)
           (init_domains (make_crossword [A; B] ["HORSE"]%string)) A ["HORSE"]%string);
    vm_compute; reflexivity.
Defined.

Lemma solve_takes_words_from_domains_witness :
  let a := [(A, "CAT"); (B, "APE")]%string in
  result (solve cross_ok (init_domains cross_ok)) = Ret (Some a)
  /\ In (B, "APE"%string) a
  /\ (exists s', dict_get var_eqb
                   (final_domains (solve cross_ok (init_domains cross_ok))) B = Some s'
                 /\ In "APE"%string s')
  /\ (exists s, dict_get var_eqb (init_domains cross_ok) B = Some s
                /\ In "APE"%string s).
Proof.
  assert (result (solve cross_ok (init_domains cross_ok))
          = Ret (Some [(A, "CAT"); (B, "APE")]%string)) as E by (vm_compute; reflexivity).
  assert (In (B, "APE"%string) [(A, "CAT"); (B, "APE")]%string) as I by (simpl; auto).
  split; [exact E|]. split; [exact I|].
  exact (solve_takes_words_from_domains cross_ok (init_domains cross_ok) _ E B _ I).
Defined.

Lemma order_domain_values_is_sorted_domain_witness :
  let s := ["CBC"; "ABB"; "BBA"]%string in
  let d := [(B, s); (A, s)] in
  let values := ["ABB"; "BBA"; "CBC"]%string in
  dict_get var_eqb d B = Some s /\ nodupb String.eqb s = true
  /\ order_domain_values lcv d B [] = Ret values
  /\ Permutation values s
  /\ Sorted (fun u v => String.leb u v = true) values
  /\ forall a' values', order_domain_values lcv d B a' = Ret values' ->
                        values' = values.
Proof.
  repeat (split; [vm_compute; reflexivity|]).
  apply (order_domain_values_is_sorted_domain lcv
           [(B, ["CBC"; "ABB"; "BBA"]); (A, ["CBC"; "ABB"; "BBA"])]%string B []
           ["CBC"; "ABB"; "BBA"]%string); vm_compute; reflexivity.
Defined.

Lemma order_domain_values_returns_witness :
  let d := [(A, ["CAT"; "APE"]); (B, ["CAT"; "APE"])]%string in
  wf_crossword cross_ok = true /\ wf_domains cross_ok d = true
  /\ node_consistentb d = true /\ In B (variables cross_ok)
  /\ exists s values,
       dict_get var_eqb d B = Some s
       /\ order_domain_values cross_ok d B [(A, "CAT"%string)] = Ret values
       /\ forall w, In w values <-> In w s.
Proof.
  assert (In B (variables cross_ok)) as HB by (simpl; auto).
  repeat (split; [vm_compute; reflexivity|]). split; [exact HB|].
  apply (order_domain_values_returns cross_ok
           [(A, ["CAT"; "APE"]); (B, ["CAT"; "APE"])]%string B [(A, "CAT"%string)]);
    auto; vm_compute; reflexivity.
Defined.

Lemma letter_grid_returns_array_witness :
  let a := [(A, "CAT"); (B, "APE")]%string in
  fits 3 3 a
  /\ exists g, letter_grid 3 3 a = Ret g /\ grid_shape 3 3 g.
Proof.
  assert (fits 3 3 [(A, "CAT"); (B, "APE")]%string) as F
    by (apply fitsb_fits; vm_compute; reflexivity).
  split; [exact F|].
  exact (letter_grid_returns_array 3 3 [(A, "CAT"); (B, "APE")]%string F).
Defined.

Lemma letter_grid_outside_raises_witness :
  let a := [(A, "CAT")]%string in
  In (A, "CAT"%string) a /\ 2 < String.length "CAT"
  /\ ~ (fst (letter_cell A 2) < 3 /\ snd (letter_cell A 2) < 2)
  /\ letter_grid 3 2 a = Raise IndexError.
Proof.
  assert (In (A, "CAT"%string) [(A, "CAT"%string)]) as I by (simpl; auto).
  assert (2 < String.length "CAT") as L by (simpl; lia).
  assert (~ (fst (letter_cell A 2) < 3 /\ snd (letter_cell A 2) < 2)) as N
    by (simpl; lia).
  split; [exact I|]. split; [exact L|]. split; [exact N|].
  exact (letter_grid_outside_raises 3 2 _ A "CAT" 2 I L N).
Defined.

Lemma letter_grid_shows_assignment_witness :
  let a := [(A, "CAT"); (B, "APE")]%string in
  let g := [[Some "C"; Some "A"; Some "T"];
            [None; Some "P"; None];
            [None; Some "E"; None]]%char in
  letters_agree a
  /\ letter_grid 3 3 a = Ret g
  /\ (forall v word k c,
        In (v, word) a -> String.get k word = Some c ->
        grid_get g (fst (letter_cell v k)) (snd (letter_cell v k)) = Some (Some c))
  /\ (forall i j,
        i < 3 -> j < 3 ->
        (forall v word k, In (v, word) a -> k < String.length word ->
                          letter_cell v k <> (i, j)) ->
        grid_get g i j = Some None).
Proof.
  assert (letters_agree [(A, "CAT"); (B, "APE")]%string) as Ag
    by (apply letters_agreeb_agree; vm_compute; reflexivity).
  assert (letter_grid 3 3 [(A, "CAT"); (B, "APE")]%string
          = Ret [[Some "C"; Some "A"; Some "T"];
                 [None; Some "P"; None];
                 [None; Some "E"; None]]%char) as E by (vm_compute; reflexivity).
  split; [exact Ag|]. split; [exact E|].
  exact (letter_grid_shows_assignment 3 3 _ _ Ag E).
Defined.
